(** * QMK JSON pretty-printers ([json_encoders.py]): a shallow embedding

    The module defines four subclasses of Python's [json.JSONEncoder]:
    [QMKJSONEncoder] (the base pretty-printer), [InfoJSONEncoder] and
    [KeymapJSONEncoder] (the two schema printers) and [KLEJSONEncoder]
    (the stock encoder with a modified float formatter).

    Python values are embedded as an inductive type, the encoder object as a
    record, and a method as a function in a state-and-exception monad over
    that record: the only field a method ever writes is
    [indentation_level].  Strings are sequences of code points below 256. *)

From Stdlib Require Import ZArith List String Ascii Bool Lia.
From Stdlib Require Import DecimalString SpecFloat Permutation Sorted.
From Stdlib Require DecimalFacts DecimalPos DecimalZ.
Import ListNotations.

Local Open Scope string_scope.
Local Open Scope Z_scope.

(** ** Text *)

Definition dquote : ascii := "034"%char.
Definition newline_char : ascii := "010"%char.

(** [newline = '\n'] (line 6 of the module). *)
Definition newline : string := String newline_char "".
Definition quote_str : string := String dquote "".

(** Python's [s * n] on a string: the empty string when [n <= 0]. *)
Fixpoint str_repeat (s : string) (n : nat) : string :=
  match n with
  | O => ""
  | S k => s ++ str_repeat s k
  end.

Definition str_mul (s : string) (n : Z) : string := str_repeat s (Z.to_nat n).

(** [sep.join(parts)] on a list of strings. *)
Definition join (sep : string) (parts : list string) : string :=
  String.concat sep parts.

(** [int.__repr__]: the decimal digits, with a minus sign when negative. *)
Definition int_repr (n : Z) : string := NilZero.string_of_int (Z.to_int n).

(** ** Values *)

(** A [decimal.Decimal]: a finite number [coef * 10 ^ exp], an infinity or a
    NaN.  The sign of a zero is not represented: a zero is whole, and is
    rendered through [int]. *)
Inductive Decimal : Type :=
| DFinite (coef exp : Z)
| DInfinity (neg : bool)
| DNaN.

(** The documents handed to the encoders.  [VList] stands for a list or a
    tuple; [VDict] lists the items of a dict in insertion order (its keys are
    strings and pairwise distinct). *)
#[local] Unset Elimination Schemes.
Inductive value : Type :=
| VNone
| VBool (b : bool)
| VInt (n : Z)
| VFloat (f : spec_float)
| VStr (s : string)
| VDecimal (d : Decimal)
| VList (elements : list value)
| VDict (items : list (string * value)).
#[local] Set Elimination Schemes.

(** The induction principle that reaches inside the two containers. *)
Section ValueInd.
Variable P : value -> Prop.
Hypothesis HNone : P VNone.
Hypothesis HBool : forall b, P (VBool b).
Hypothesis HInt : forall n, P (VInt n).
Hypothesis HFloat : forall f, P (VFloat f).
Hypothesis HStr : forall s, P (VStr s).
Hypothesis HDecimal : forall d, P (VDecimal d).
Hypothesis HList : forall l, Forall P l -> P (VList l).
Hypothesis HDict : forall items, Forall (fun kv => P (snd kv)) items -> P (VDict items).

Fixpoint value_ind (v : value) : P v :=
  match v with
  | VNone => HNone
  | VBool b => HBool b
  | VInt n => HInt n
  | VFloat f => HFloat f
  | VStr s => HStr s
  | VDecimal d => HDecimal d
  | VList l =>
      HList l ((fix go (l : list value) : Forall P l :=
                  match l with
                  | [] => Forall_nil P
                  | x :: xs => Forall_cons x (value_ind x) (go xs)
                  end) l)
  | VDict items =>
      HDict items
        ((fix go (l : list (string * value)) : Forall (fun kv => P (snd kv)) l :=
            match l with
            | [] => Forall_nil _
            | kv :: xs => Forall_cons kv (value_ind (snd kv)) (go xs)
            end) items)
  end.
End ValueInd.

(** [isinstance(element, self.container_types)], with
    [container_types = (list, tuple, dict)]. *)
Definition is_container (v : value) : bool :=
  match v with
  | VList _ | VDict _ => true
  | _ => false
  end.

(** ** The Python runtime

    Builtins that format a value and that the module calls without defining
    them.  [floatstr] itself takes the float formatter as a parameter
    ([_repr=float.__repr__]); the others are [Decimal.__str__] and the
    [repr] of a container (what an f-string makes of a list). *)
Record runtime : Type := {
  float_repr : spec_float -> string;
  decimal_str : Decimal -> string;
  container_repr : value -> string
}.

(** [str(x)], which is what an f-string field [{x}] expands to. *)
Definition py_str (rt : runtime) (v : value) : string :=
  match v with
  | VNone => "None"
  | VBool true => "True"
  | VBool false => "False"
  | VInt n => int_repr n
  | VFloat f => float_repr rt f
  | VStr s => s
  | VDecimal d => decimal_str rt d
  | VList _ | VDict _ => container_repr rt v
  end.

(** *** Numbers *)

(** [int(d)] on a Decimal truncates toward zero; it raises on NaN and on the
    infinities (handled by the caller). *)
Definition decimal_trunc (coef exp : Z) : Z :=
  if 0 <=? exp then coef * 10 ^ exp else Z.quot coef (10 ^ (- exp)).

(** [d == n] for a finite Decimal and an int: exact comparison. *)
Definition decimal_eq_int (coef exp n : Z) : bool :=
  if 0 <=? exp then coef * 10 ^ exp =? n else coef =? n * 10 ^ (- exp).

(** The integer nearest to [p / q], ties to the even one ([0 <= p], [0 < q]). *)
Definition round_half_even (p q : Z) : Z :=
  let d := p / q in
  match 2 * (p mod q) ?= q with
  | Lt => d
  | Gt => d + 1
  | Eq => if Z.even d then d else d + 1
  end.

(** [p / (q * 2 ^ e)] as a fraction of integers. *)
Definition scale2 (p q e : Z) : Z * Z :=
  if 0 <=? e then (p, q * 2 ^ e) else (p * 2 ^ (- e), q).

(** The binary64 float nearest to [p / q] ([0 < p], [0 < q]), ties to even:
    a mantissa below [2^53] at the exponent that puts the quotient in
    [[2^52, 2^53)], not below the exponent [-1074] of the subnormals; an
    infinity past the largest float [(2^53 - 1) * 2^971]. *)
Definition binary64_of_ratio (neg : bool) (p q : Z) : spec_float :=
  let e0 := Z.log2 p - Z.log2 q - 52 in
  let e1 := if fst (scale2 p q e0) <? snd (scale2 p q e0) * 2 ^ 52 then e0 - 1 else e0 in
  let e := Z.max e1 (-1074) in
  let m := round_half_even (fst (scale2 p q e)) (snd (scale2 p q e)) in
  if m =? 0 then S754_zero neg
  else
    let '(m', e') := if m =? 2 ^ 53 then (2 ^ 52, e + 1) else (m, e) in
    if 971 <? e' then S754_infinity neg else S754_finite neg (Z.to_pos m') e'.

(** [float(d)] on a Decimal ([Decimal.__float__]): the nearest float. *)
Definition float_of_decimal (d : Decimal) : spec_float :=
  match d with
  | DNaN => S754_nan
  | DInfinity neg => S754_infinity neg
  | DFinite coef exp =>
      if coef =? 0 then S754_zero false
      else if 0 <=? exp then binary64_of_ratio (coef <? 0) (Z.abs coef * 10 ^ exp) 1
      else binary64_of_ratio (coef <? 0) (Z.abs coef) (10 ^ (- exp))
  end.

(** [int(o)] on a float truncates toward zero; a finite float is
    [(-1)^s * m * 2^e].  It is not called on a NaN or an infinity. *)
Definition float_trunc (o : spec_float) : Z :=
  match o with
  | S754_finite s m e =>
      let a := if 0 <=? e then Z.pos m * 2 ^ e else Z.pos m / 2 ^ (- e) in
      if s then - a else a
  | _ => 0
  end.

(** [o == n] for a float and an int: exact comparison. *)
Definition float_eq_int (o : spec_float) (n : Z) : bool :=
  match o with
  | S754_zero _ => 0 =? n
  | S754_finite s m e =>
      let v := if s then Z.neg m else Z.pos m in
      if 0 <=? e then v * 2 ^ e =? n else v =? n * 2 ^ (- e)
  | _ => false
  end.

(** *** [json.encoder]: strings *)

Definition hex_digit (n : N) : ascii :=
  match n with
  | 0 => "0" | 1 => "1" | 2 => "2" | 3 => "3" | 4 => "4"
  | 5 => "5" | 6 => "6" | 7 => "7" | 8 => "8" | 9 => "9"
  | 10 => "a" | 11 => "b" | 12 => "c" | 13 => "d" | 14 => "e"
  | _ => "f"
  end%N%char.

(** ['\\u{0:04x}'.format(n)] for a code point below 256. *)
Definition u_escape (c : ascii) : string :=
  let n := N_of_ascii c in
  "\u00" ++ String (hex_digit (n / 16)) (String (hex_digit (n mod 16)) "").

(** [ESCAPE_DCT]: the short escapes, and [\u00XX] for the other control
    characters. *)
Definition escape_dct (c : ascii) : option string :=
  let n := N_of_ascii c in
  if (n =? 92)%N then Some "\\"
  else if (n =? 34)%N then Some (String "\" quote_str)
  else if (n =? 8)%N then Some "\b"
  else if (n =? 12)%N then Some "\f"
  else if (n =? 10)%N then Some "\n"
  else if (n =? 13)%N then Some "\r"
  else if (n =? 9)%N then Some "\t"
  else if (n <? 32)%N then Some (u_escape c)
  else None.

(** [ESCAPE_ASCII] matches a backslash, a quote and everything outside
    [' '..'~']; [ESCAPE] matches a backslash, a quote and the control
    characters. *)
Definition escape_one (ascii_only : bool) (c : ascii) : string :=
  match escape_dct c with
  | Some e => e
  | None =>
      if ascii_only && (126 <? N_of_ascii c)%N then u_escape c
      else String c ""
  end.

Fixpoint escape_body (ascii_only : bool) (s : string) : string :=
  match s with
  | EmptyString => ""
  | String c rest => escape_one ascii_only c ++ escape_body ascii_only rest
  end.

(** [encode_basestring_ascii] and [encode_basestring]. *)
Definition encode_basestring_ascii (s : string) : string :=
  quote_str ++ escape_body true s ++ quote_str.

Definition encode_basestring (s : string) : string :=
  quote_str ++ escape_body false s ++ quote_str.

(** [json.dumps(key)] on a string: the default encoder has
    [ensure_ascii=True]. *)
Definition json_dumps_str (key : string) : string := encode_basestring_ascii key.

(** ** Exceptions and the method monad *)

Inductive exn : Type := TypeError | AttributeError | ValueError | OverflowError.

Inductive outcome (A : Type) : Type :=
| Return (a : A)
| Raise (e : exn).
Arguments Return {A} a.
Arguments Raise {A} e.

(** The encoder object: the three constructor options the printers read and
    the depth counter. *)
Record encoder : Type := mkEncoder {
  indent : Z;
  ensure_ascii : bool;
  allow_nan : bool;
  indentation_level : Z
}.

Definition set_level (self : encoder) (n : Z) : encoder :=
  {| indent := indent self;
     ensure_ascii := ensure_ascii self;
     allow_nan := allow_nan self;
     indentation_level := n |}.

(** A method body: it reads and writes [self] and returns or raises.  An
    exception leaves [self] as it was when raised (the module has no
    [try]/[finally]). *)
Definition M (A : Type) : Type := encoder -> outcome A * encoder.

Definition ret {A} (a : A) : M A := fun self => (Return a, self).
Definition raise {A} (e : exn) : M A := fun self => (Raise e, self).
Definition bind {A B} (m : M A) (k : A -> M B) : M B :=
  fun self =>
    match m self with
    | (Return a, self') => k a self'
    | (Raise e, self') => (Raise e, self')
    end.
Definition read {A} (f : encoder -> A) : M A := fun self => (Return (f self), self).
Definition lift {A} (o : outcome A) : M A := fun self => (o, self).

(** [self.indentation_level += d]. *)
Definition bump_level (d : Z) : M unit :=
  fun self => (Return tt, set_level self (indentation_level self + d)).

Declare Scope method_scope.
Delimit Scope method_scope with method.
Notation "x <- c1 ;; c2" := (bind c1 (fun x => c2))
  (at level 100, c1 at next level, right associativity) : method_scope.
Notation "c1 ;;; c2" := (bind c1 (fun _ => c2))
  (at level 100, right associativity) : method_scope.
Local Open Scope method_scope.

(** Running a list of computations left to right (a list comprehension, or
    the generator a [join] consumes). *)
Fixpoint sequenceM {A} (acts : list (M A)) : M (list A) :=
  match acts with
  | [] => ret []
  | act :: rest =>
      a <- act ;;
      others <- sequenceM rest ;;
      ret (a :: others)
  end.

(** *** Specifications of computations *)

(** A computation restores the encoder when every normal return leaves
    [self] as it found it. *)
Definition restores {A} (m : M A) : Prop :=
  forall self a self', m self = (Return a, self') -> self' = self.

(** A computation shifts the depth by [d] when every normal return leaves
    [self] with [indentation_level] moved by [d] and nothing else changed. *)
Definition shifts {A} (d : Z) (m : M A) : Prop :=
  forall self a self',
    m self = (Return a, self') -> self' = set_level self (indentation_level self + d).

(** [m] returns on [self], leaves it unchanged, and its result satisfies [P]. *)
Definition returns_at {A} (m : M A) (self : encoder) (P : A -> Prop) : Prop :=
  exists a, m self = (Return a, self) /\ P a.

(** What [encode] returns: text, or the number [encode_decimal] hands back. *)
Inductive encoded : Type :=
| EStr (s : string)
| EInt (n : Z)
| EFloat (f : spec_float).

(** [format(x, '')] inside an f-string. *)
Definition format_encoded (rt : runtime) (x : encoded) : string :=
  match x with
  | EStr s => s
  | EInt n => int_repr n
  | EFloat f => float_repr rt f
  end.

(** [s + x]: a [TypeError] unless [x] is a string. *)
Definition str_add (s : string) (x : encoded) : outcome string :=
  match x with
  | EStr t => Return (s ++ t)
  | _ => Raise TypeError
  end.

(** [sep.join(xs)]: a [TypeError] unless every item is a string. *)
Fixpoint all_str (xs : list encoded) : outcome (list string) :=
  match xs with
  | [] => Return []
  | EStr s :: rest =>
      match all_str rest with
      | Return ss => Return (s :: ss)
      | Raise e => Raise e
      end
  | _ :: _ => Raise TypeError
  end.

Definition join_encoded (sep : string) (xs : list encoded) : outcome string :=
  match all_str xs with
  | Return ss => Return (join sep ss)
  | Raise e => Raise e
  end.

(** [sorted(xs, key=key)]: a stable sort on string keys, ascending in code
    point order. *)
Section Sorted.
Context {A : Type} (key : A -> string).

Fixpoint insert_sorted (x : A) (l : list A) : list A :=
  match l with
  | [] => [x]
  | y :: ys =>
      if String.leb (key x) (key y) then x :: l else y :: insert_sorted x ys
  end.

Definition sorted (l : list A) : list A := fold_right insert_sorted [] l.
End Sorted.

(** ** [json.JSONEncoder]: scalars

    The stock float formatter, [floatstr] of [JSONEncoder.iterencode]. *)
Definition stock_floatstr (rt : runtime) (allow : bool) (o : spec_float) : outcome string :=
  match o with
  | S754_nan => if allow then Return "NaN" else Raise ValueError
  | S754_infinity false => if allow then Return "Infinity" else Raise ValueError
  | S754_infinity true => if allow then Return "-Infinity" else Raise ValueError
  | _ => Return (float_repr rt o)
  end.

(** The encoder for strings that [iterencode] selects from [ensure_ascii]. *)
Definition string_encoder (ascii_only : bool) (s : string) : string :=
  if ascii_only then encode_basestring_ascii s else encode_basestring s.

(** [JSONEncoder.encode] and [_iterencode] on a value that is not a
    container; [default] raises [TypeError] on a Decimal. *)
Definition encode_scalar (floatstr : spec_float -> outcome string)
    (ascii_only : bool) (o : value) : outcome string :=
  match o with
  | VStr s => Return (string_encoder ascii_only s)
  | VNone => Return "null"
  | VBool true => Return "true"
  | VBool false => Return "false"
  | VInt n => Return (int_repr n)
  | VFloat f => floatstr f
  | VDecimal _ | VList _ | VDict _ => Raise TypeError
  end.

(** ** [QMKJSONEncoder] and its two schema printers *)

(** The three classes that share [QMKJSONEncoder.encode]. *)
Inductive printer : Type := QMKJSONEncoder | InfoJSONEncoder | KeymapJSONEncoder.

(** [QMKJSONEncoder.__init__]: [indent] is the constructor's keyword, [None]
    when it is not given. *)
Definition init (indent_arg : option Z) (ascii_only allow : bool) : encoder :=
  {| indent := match indent_arg with
               | None => 4
               | Some n => if n =? 0 then 4 else n
               end;
     ensure_ascii := ascii_only;
     allow_nan := allow;
     indentation_level := 0 |}.

(** The property [indent_str]. *)
Definition indent_str (self : encoder) : string :=
  str_mul " " (indentation_level self * indent self).

(** [primitives_only]. *)
Definition primitives_only (obj : value) : bool :=
  let elements :=
    match obj with
    | VDict items => map snd items
    | VList l => l
    | _ => []
    end in
  negb (existsb is_container elements).

(** [InfoJSONEncoder.sort_dict], on the key of the item. *)
Definition info_sort_dict (level : Z) (key : string) : string :=
  if level =? 1 then
    if String.eqb key "manufacturer" then "10keyboard_name"
    else if String.eqb key "keyboard_name" then "11keyboard_name"
    else if String.eqb key "maintainer" then "12maintainer"
    else if String.eqb key "processor" then "13processor"
    else if String.eqb key "bootloader" then "14bootloader"
    else if String.eqb key "usb" then "15usb"
    else if String.eqb key "features" then "16bootloader"
    else if String.eqb key "community_layouts" then "97community_layouts"
    else if String.eqb key "layout_aliases" then "98layout_aliases"
    else if String.eqb key "layouts" then "99layouts"
    else "50" ++ key
  else if level =? 2 then
    if String.eqb key "vid" then "10vid"
    else if String.eqb key "pid" then "11pid"
    else if String.eqb key "device_ver" then "12device_ver"
    else key
  else key.

(** [KeymapJSONEncoder.sort_dict]. *)
Definition keymap_sort_dict (level : Z) (key : string) : string :=
  if level =? 1 then
    if String.eqb key "version" then "00version"
    else if String.eqb key "author" then "01author"
    else if String.eqb key "notes" then "02notes"
    else if String.eqb key "layers" then "98layers"
    else if String.eqb key "documentation" then "99documentation"
    else "50" ++ key
  else key.

Section Methods.
Variable rt : runtime.

(** [QMKJSONEncoder.encode_decimal]. *)
Definition encode_decimal (obj : Decimal) : M encoded :=
  match obj with
  | DNaN => raise ValueError
  | DInfinity _ => raise OverflowError
  | DFinite coef exp =>
      if decimal_eq_int coef exp (decimal_trunc coef exp)
      then ret (EInt (decimal_trunc coef exp))
      else ret (EFloat (float_of_decimal obj))
  end.

(** [super().encode(obj)]: [self.indent] is never [None], so the stock
    Python encoder runs with the stock float formatter. *)
Definition super_encode (obj : value) : M encoded :=
  self <- read (fun self => self) ;;
  s <- lift (encode_scalar (stock_floatstr rt (allow_nan self)) (ensure_ascii self) obj) ;;
  ret (EStr s).

(** The methods call [self.encode] on the children of a container. *)
Section Children.
Variable encode : value -> M encoded.

(** The inline branch, shared by the two [encode_list]. *)
Definition encode_list_inline (obj : list value) : M encoded :=
  parts <- sequenceM (map encode obj) ;;
  body <- lift (join_encoded ", " parts) ;;
  ret (EStr ("[" ++ body ++ "]")).

(** The expanded branch, shared by the two [encode_list]. *)
Definition encode_list_expanded (obj : list value) : M encoded :=
  bump_level 1 ;;;
  output <- sequenceM
              (map (fun element =>
                      pre <- read indent_str ;;
                      x <- encode element ;;
                      lift (str_add pre x)) obj) ;;
  bump_level (-1) ;;;
  close <- read indent_str ;;
  ret (EStr ("[" ++ newline ++ join ("," ++ newline) output
                 ++ newline ++ close ++ "]")).

(** [QMKJSONEncoder.encode_list]. *)
Definition qmk_encode_list (obj : list value) : M encoded :=
  if primitives_only (VList obj) then encode_list_inline obj
  else encode_list_expanded obj.

(** An item of a dict paired with the call [self.encode(value)] on its
    value: sorting the items does not run the calls. *)
Definition item_calls (obj : list (string * value)) : list (string * M encoded) :=
  map (fun kv => (fst kv, encode (snd kv))) obj.

(** [InfoJSONEncoder.encode_dict].  [sorted(obj.items())] compares the
    keys, which are distinct; [self.encode(key)] on a string key is the
    last branch of [encode]. *)
Definition info_encode_dict (obj : list (string * value)) : M encoded :=
  match obj with
  | [] => ret (EStr "{}")
  | _ :: _ =>
      level <- read indentation_level ;;
      if level =? 4 then
        parts <- sequenceM
                   (map (fun kc =>
                           k <- super_encode (VStr (fst kc)) ;;
                           x <- snd kc ;;
                           ret (format_encoded rt k ++ ": " ++ format_encoded rt x))
                        (sorted fst (item_calls obj))) ;;
        ret (EStr ("{ " ++ join ", " parts ++ " }"))
      else
        bump_level 1 ;;;
        level' <- read indentation_level ;;
        output <- sequenceM
                    (map (fun kc =>
                            pre <- read indent_str ;;
                            x <- snd kc ;;
                            ret (pre ++ json_dumps_str (fst kc) ++ ": "
                                     ++ format_encoded rt x))
                         (sorted (fun kc => info_sort_dict level' (fst kc))
                                 (item_calls obj))) ;;
        bump_level (-1) ;;;
        close <- read indent_str ;;
        ret (EStr ("{" ++ newline ++ join ("," ++ newline) output
                       ++ newline ++ close ++ "}"))
  end.

(** [KeymapJSONEncoder.encode_dict]. *)
Definition keymap_encode_dict (obj : list (string * value)) : M encoded :=
  match obj with
  | [] => ret (EStr "{}")
  | _ :: _ =>
      bump_level 1 ;;;
      level' <- read indentation_level ;;
      output_lines <- sequenceM
                        (map (fun kc =>
                                pre <- read indent_str ;;
                                x <- snd kc ;;
                                ret (pre ++ json_dumps_str (fst kc) ++ ": "
                                         ++ format_encoded rt x))
                             (sorted (fun kc => keymap_sort_dict level' (fst kc))
                                     (item_calls obj))) ;;
      let output := join ("," ++ newline) output_lines in
      bump_level (-1) ;;;
      close <- read indent_str ;;
      ret (EStr ("{" ++ newline ++ output ++ newline ++ close ++ "}"))
  end.

(** [layer[-1].append(cell)]; [layer] is never empty. *)
Fixpoint append_to_last (layer : list (list string)) (cell : string) : list (list string) :=
  match layer with
  | [] => []
  | [row] => [(row ++ [cell])%list]
  | row :: rest => row :: append_to_last rest cell
  end.

(** [key == 'JSON_NEWLINE']. *)
Definition is_sentinel (key : value) : bool :=
  match key with
  | VStr s => String.eqb s "JSON_NEWLINE"
  | _ => false
  end.

(** The loop of [KeymapJSONEncoder.encode_list] that fills [layer]. *)
Fixpoint layer_rows (obj : list value) (layer : list (list string)) : M (list (list string)) :=
  match obj with
  | [] => ret layer
  | key :: rest =>
      if is_sentinel key then layer_rows rest (layer ++ [[]])%list
      else
        match key with
        | VDict _ =>
            x <- encode key ;;
            layer_rows rest (append_to_last layer (format_encoded rt x))
        | _ =>
            layer_rows rest
              (append_to_last layer (quote_str ++ py_str rt key ++ quote_str))
        end
  end.

(** [KeymapJSONEncoder.encode_list]. *)
Definition keymap_encode_list (obj : list value) : M encoded :=
  level <- read indentation_level ;;
  if level =? 2 then
    let indent_level := level + 1 in
    layer <- layer_rows obj [[]] ;;
    pre <- read indent_str ;;
    let layer' := map (fun row => str_mul pre indent_level ++ join ", " row) layer in
    level_now <- read indentation_level ;;
    ret (EStr (pre ++ "[" ++ newline ++ join newline layer' ++ newline
                   ++ str_mul pre level_now ++ "]"))
  else if primitives_only (VList obj) then encode_list_inline obj
  else encode_list_expanded obj.

(** The dispatch [self.encode_list] / [self.encode_dict]; the base class
    has no [encode_dict]. *)
Definition encode_list (cls : printer) (obj : list value) : M encoded :=
  match cls with
  | KeymapJSONEncoder => keymap_encode_list obj
  | _ => qmk_encode_list obj
  end.

Definition encode_dict (cls : printer) (obj : list (string * value)) : M encoded :=
  match cls with
  | QMKJSONEncoder => raise AttributeError
  | InfoJSONEncoder => info_encode_dict obj
  | KeymapJSONEncoder => keymap_encode_dict obj
  end.
End Children.

(** [QMKJSONEncoder.encode]. *)
Fixpoint encode (cls : printer) (obj : value) {struct obj} : M encoded :=
  match obj with
  | VDecimal d => encode_decimal d
  | VList l => encode_list (encode cls) cls l
  | VDict items => encode_dict (encode cls) cls items
  | _ => super_encode obj
  end.

End Methods.

(** ** [KLEJSONEncoder]

    The class overrides [iterencode] only; [__init__] and [encode] are those
    of [json.JSONEncoder].  [kle_indent] is the [indent] option ([None] by
    default); the separators follow from it as in [JSONEncoder.__init__]. *)
Record kle_encoder : Type := {
  kle_indent : option Z;
  kle_ensure_ascii : bool;
  kle_allow_nan : bool
}.

(** The encoder [KLEJSONEncoder()] builds from the defaults. *)
Definition kle_default : kle_encoder :=
  {| kle_indent := None; kle_ensure_ascii := true; kle_allow_nan := true |}.

Definition item_separator (self : kle_encoder) : string :=
  match kle_indent self with
  | None => ", "
  | Some _ => ","
  end.

Definition key_separator : string := ": ".

(** [floatstr] as [KLEJSONEncoder.iterencode] redefines it. *)
Definition kle_floatstr (rt : runtime) (allow : bool) (o : spec_float) : outcome string :=
  match o with
  | S754_nan => if allow then Return "NaN" else Raise ValueError
  | S754_infinity false => if allow then Return "Infinity" else Raise ValueError
  | S754_infinity true => if allow then Return "-Infinity" else Raise ValueError
  | _ =>
      if float_eq_int o (float_trunc o) then Return (int_repr (float_trunc o))
      else Return (float_repr rt o)
  end.

Fixpoint all_returned {A} (xs : list (outcome A)) : outcome (list A) :=
  match xs with
  | [] => Return []
  | Return a :: rest =>
      match all_returned rest with
      | Return others => Return (a :: others)
      | Raise e => Raise e
      end
  | Raise e :: _ => Raise e
  end.

(** [_make_iterencode]: the chunks [_iterencode(o, level)] yields, joined.
    [_indent] is [' ' * indent] when an indent is given. *)
Section MakeIterencode.
Variable floatstr : spec_float -> outcome string.
Variable ascii_only : bool.
Variable indent_opt : option Z.
Variable item_sep : string.

(** ['\n' + _indent * level], or nothing without an indent. *)
Definition newline_indent (level : Z) : string :=
  match indent_opt with
  | None => ""
  | Some n => newline ++ str_mul (str_mul " " n) level
  end.

(** The level inside a container. *)
Definition inner_level (level : Z) : Z :=
  match indent_opt with
  | None => level
  | Some _ => level + 1
  end.

Definition wrap (open close : string) (level : Z) (chunks : list (outcome string)) : outcome string :=
  match all_returned chunks with
  | Return parts =>
      Return (open ++ newline_indent (inner_level level)
                   ++ join (item_sep ++ newline_indent (inner_level level)) parts
                   ++ newline_indent level ++ close)
  | Raise e => Raise e
  end.

Fixpoint iterencode_value (o : value) (level : Z) {struct o} : outcome string :=
  match o with
  | VList [] => Return "[]"
  | VList lst =>
      wrap "[" "]" level (map (fun v => iterencode_value v (inner_level level)) lst)
  | VDict [] => Return "{}"
  | VDict dct =>
      wrap "{" "}" level
        (map (fun kv =>
                match iterencode_value (snd kv) (inner_level level) with
                | Return t =>
                    Return (string_encoder ascii_only (fst kv) ++ key_separator ++ t)
                | Raise e => Raise e
                end) dct)
  | _ => encode_scalar floatstr ascii_only o
  end.
End MakeIterencode.

(** [KLEJSONEncoder.iterencode(o, _one_shot)], its chunks joined.
    [c_make_encoder] tells whether the C accelerator of [json] is present
    ([c_make_encoder is not None]); the C encoder is built without
    [floatstr]: it formats floats as the stock encoder does. *)
Definition kle_iterencode (rt : runtime) (c_make_encoder : bool) (self : kle_encoder)
    (o : value) (one_shot : bool) : outcome string :=
  let floatstr :=
    if one_shot && c_make_encoder
       && match kle_indent self with None => true | Some _ => false end
    then stock_floatstr rt (kle_allow_nan self)
    else kle_floatstr rt (kle_allow_nan self) in
  iterencode_value floatstr (kle_ensure_ascii self) (kle_indent self)
    (item_separator self) o 0.

(** [JSONEncoder.encode], which [KLEJSONEncoder] inherits: a string is
    encoded at once, anything else through [iterencode(o, _one_shot=True)]. *)
Definition kle_encode (rt : runtime) (c_make_encoder : bool) (self : kle_encoder)
    (o : value) : outcome string :=
  match o with
  | VStr s => Return (string_encoder (kle_ensure_ascii self) s)
  | _ => kle_iterencode rt c_make_encoder self o true
  end.

(** ** Vocabulary of the statements *)

(** The number of occurrences of a character in a text, and its lines. *)
Fixpoint count_char (c : ascii) (s : string) : nat :=
  match s with
  | EmptyString => O
  | String c' rest => (if Ascii.eqb c c' then 1 else 0) + count_char c rest
  end.

Definition count_newlines (s : string) : nat := count_char newline_char s.

Fixpoint all_chars (p : ascii -> bool) (s : string) : bool :=
  match s with
  | EmptyString => true
  | String c rest => p c && all_chars p rest
  end.

Definition is_digit (c : ascii) : bool :=
  let n := N_of_ascii c in ((48 <=? n) && (n <=? 57))%N.

Definition digit_or_minus (c : ascii) : bool := is_digit c || Ascii.eqb c "-".

(** A Decimal equal to its own truncation. *)
Definition decimal_whole (d : Decimal) : bool :=
  match d with
  | DFinite coef exp => decimal_eq_int coef exp (decimal_trunc coef exp)
  | _ => false
  end.

(** Strings, booleans, null and integers. *)
Definition text_scalar (v : value) : bool :=
  match v with
  | VNone | VBool _ | VInt _ | VStr _ => true
  | _ => false
  end.



(** The rows of a layer, in the words of the specification: the elements
    between one sentinel and the next form a row. *)
Fixpoint split_rows (obj : list value) : list (list value) :=
  match obj with
  | [] => [[]]
  | key :: rest =>
      if is_sentinel key then [] :: split_rows rest
      else
        match split_rows rest with
        | row :: rows => (key :: row) :: rows
        | [] => [[key]]
        end
  end.

(** An element of a layer as the loop renders it when it is not a mapping. *)
Definition quoted (rt : runtime) (key : value) : string :=
  quote_str ++ py_str rt key ++ quote_str.

Definition is_dict (v : value) : bool :=
  match v with
  | VDict _ => true
  | _ => false
  end.

(** The text of a layer whose rows are prefixed by [row_pre] and whose
    closing bracket is prefixed by [close_pre]. *)
Definition layer_text (rt : runtime) (row_pre close_pre : string) (obj : list value) : string :=
  "[" ++ newline
      ++ join newline (map (fun row => row_pre ++ join ", " (map (quoted rt) row))
                           (split_rows obj))
      ++ newline ++ close_pre ++ "]".


(** The float 2.0: [2^52 * 2^-51]. *)
Definition float_two : spec_float := S754_finite false 4503599627370496 (-51).

(** The three-character string made of [a], a double quote and [b]. *)
Definition a_quote_b : string := String "a" (String dquote "b").

(** Two finite Decimals denote the same number. *)
Definition decimal_same_value (coef1 exp1 coef2 exp2 : Z) : bool :=
  coef1 * 10 ^ (exp1 - Z.min exp1 exp2) =? coef2 * 10 ^ (exp2 - Z.min exp1 exp2).



(** The keys [sort_dict] ranks by name at depth 1. *)
Definition info_priority_keys : list string :=
  ["manufacturer"; "keyboard_name"; "maintainer"; "processor"; "bootloader"; "usb";
   "features"; "community_layouts"; "layout_aliases"; "layouts"].

Definition keymap_priority_keys : list string :=
  ["version"; "author"; "notes"; "layers"; "documentation"].

(** ** Vocabulary of the further properties *)

(** The JSON text of a string, a boolean, null or an integer. *)
Definition text_scalar_text (ascii_only : bool) (v : value) : string :=
  match v with
  | VNone => "null"
  | VBool true => "true"
  | VBool false => "false"
  | VInt n => int_repr n
  | VStr s => string_encoder ascii_only s
  | _ => ""
  end.

Definition is_decimal (v : value) : bool :=
  match v with
  | VDecimal _ => true
  | _ => false
  end.



(** The sequences the Keymap-Document Printer groups into rows: those met
    at depth 2. *)
Definition row_grouped (cls : printer) (level : Z) : bool :=
  match cls with
  | KeymapJSONEncoder => level =? 2
  | _ => false
  end.

(** The depth at which the elements of a sequence are encoded: the inline
    branch stays at the depth of the sequence, the expanded one goes one
    deeper. *)
Definition element_level (l : list value) (level : Z) : Z :=
  if primitives_only (VList l) then level else level + 1.

(** The depth at which the values of a mapping are encoded. *)
Definition item_level (cls : printer) (level : Z) : Z :=
  match cls with
  | InfoJSONEncoder => if level =? 4 then level else level + 1
  | _ => level + 1
  end.

(** The documents a printer can encode at a depth, [allow] being its
    [allow_nan] option: a float is finite unless [allow]; a Decimal is
    finite; an element of a sequence is no Decimal, except in a row-grouped
    sequence, where only the mappings are encoded; the base printer has no
    method for a mapping. *)
Fixpoint encodable (cls : printer) (allow : bool) (level : Z) (v : value) {struct v} : bool :=
  match v with
  | VFloat (S754_infinity _) | VFloat S754_nan => allow
  | VDecimal (DInfinity _) | VDecimal DNaN => false
  | VList l =>
      if row_grouped cls level
      then forallb (fun key => negb (is_dict key) || encodable cls allow level key) l
      else forallb (fun x => negb (is_decimal x)
                             && encodable cls allow (element_level l level) x) l
  | VDict items =>
      match cls with
      | QMKJSONEncoder => false
      | _ => forallb (fun kv => encodable cls allow (item_level cls level) (snd kv)) items
      end
  | _ => true
  end.

(** A document that holds a mapping, at any depth. *)
Fixpoint has_dict (v : value) : bool :=
  match v with
  | VDict _ => true
  | VList l => existsb has_dict l
  | _ => false
  end.

(** A Decimal that is a number: neither a NaN nor an infinity. *)
Definition finite_decimal (v : value) : bool :=
  match v with
  | VDecimal (DFinite _ _) => true
  | _ => false
  end.

(** A float that equals an integer: [o == int(o)], which [floatstr] asks of
    a float that is neither a NaN nor an infinity. *)
Definition whole_float (o : spec_float) : bool :=
  match o with
  | S754_zero _ | S754_finite _ _ _ => float_eq_int o (float_trunc o)
  | _ => false
  end.

(** The document in which every whole float is replaced by the integer it
    equals. *)
Fixpoint floats_to_int (v : value) : value :=
  match v with
  | VFloat f => if whole_float f then VInt (float_trunc f) else v
  | VList l => VList (map floats_to_int l)
  | VDict items => VDict (map (fun kv => (fst kv, floats_to_int (snd kv))) items)
  | _ => v
  end.

(** Whether [iterencode] builds the encoder of the C accelerator. *)
Definition uses_c_encoder (c_make_encoder : bool) (self : kle_encoder) (one_shot : bool) : bool :=
  one_shot && c_make_encoder
  && match kle_indent self with None => true | Some _ => false end.

(** The stock encoder, [json.JSONEncoder] with the options of [self], run
    through [_make_iterencode]. *)
Definition stock_iterencode (rt : runtime) (self : kle_encoder) (o : value) : outcome string :=
  iterencode_value (stock_floatstr rt (kle_allow_nan self)) (kle_ensure_ascii self)
    (kle_indent self) (item_separator self) o 0.

(** The documents [KLEJSONEncoder] can encode: no Decimal, and no NaN or
    infinity unless [allow_nan]. *)
Fixpoint kle_encodable (allow : bool) (v : value) : bool :=
  match v with
  | VFloat (S754_infinity _) | VFloat S754_nan => allow
  | VDecimal _ => false
  | VList l => forallb (kle_encodable allow) l
  | VDict items => forallb (fun kv => kle_encodable allow (snd kv)) items
  | _ => true
  end.

(** [self'] is [self] with the depth counter moved up by [d] or more: the
    three options are those of [self]. *)
Definition deeper (d : Z) (self self' : encoder) : Prop :=
  indent self' = indent self
  /\ ensure_ascii self' = ensure_ascii self
  /\ allow_nan self' = allow_nan self
  /\ indentation_level self + d <= indentation_level self'.

(** A computation that, when it raises, leaves the options alone and the
    depth counter no lower than it found it. *)
Definition frames {A} (m : M A) : Prop :=
  forall self e self', m self = (Raise e, self') -> deeper 0 self self'.

(** The containers rendered expanded, whose children are encoded one level
    deeper: a sequence that holds a container and is not row-grouped, a
    non-empty mapping unless the Config-Document Printer is at depth 4. *)
Definition expands (cls : printer) (level : Z) (v : value) : bool :=
  match v with
  | VList l => negb (row_grouped cls level) && negb (primitives_only (VList l))
  | VDict (_ :: _) =>
      match cls with
      | QMKJSONEncoder => false
      | InfoJSONEncoder => negb (level =? 4)
      | KeymapJSONEncoder => true
      end
  | _ => false
  end.

(** The rank [sort_dict] gives to a key of a mapping met at depth [level]:
    the method runs inside the mapping, one level deeper. *)
Definition item_rank (cls : printer) (level : Z) (key : string) : string :=
  match cls with
  | InfoJSONEncoder => info_sort_dict (level + 1) key
  | KeymapJSONEncoder => keymap_sort_dict (level + 1) key
  | QMKJSONEncoder => key
  end.

(** The encoder one level deeper. *)
Definition inside (self : encoder) : encoder :=
  set_level self (indentation_level self + 1).

(** The text of an expanded mapping whose items are [items], rendered in
    this order, the value of an item being rendered as [text] tells. *)
Definition expanded_mapping_text (self : encoder) (text : string * value -> string)
    (items : list (string * value)) : string :=
  "{" ++ newline
      ++ join ("," ++ newline)
           (map (fun kv => indent_str (inside self) ++ json_dumps_str (fst kv) ++ ": " ++ text kv)
                items)
      ++ newline ++ indent_str self ++ "}".

(** The text of an inline mapping. *)
Definition inline_mapping_text (self : encoder) (text : string * value -> string)
    (items : list (string * value)) : string :=
  "{ " ++ join ", "
            (map (fun kv => string_encoder (ensure_ascii self) (fst kv) ++ ": " ++ text kv)
                 items)
       ++ " }".

(** A cell of a row: a mapping (a macro) as [text] renders it, any other
    element quoted. *)
Definition row_cell (rt : runtime) (text : value -> string) (key : value) : string :=
  if is_dict key then text key else quoted rt key.

(** The text of a layer whose cells are rendered by [cell]. *)
Definition layer_text_with (cell : value -> string) (row_pre close_pre : string)
    (obj : list value) : string :=
  "[" ++ newline
      ++ join newline (map (fun row => row_pre ++ join ", " (map cell row)) (split_rows obj))
      ++ newline ++ close_pre ++ "]".

(** The text of an expanded sequence whose elements are rendered by
    [text]. *)
Definition expanded_sequence_text (self : encoder) (text : value -> string)
    (l : list value) : string :=
  "[" ++ newline
      ++ join ("," ++ newline) (map (fun v => indent_str (inside self) ++ text v) l)
      ++ newline ++ indent_str self ++ "]".
(** ** Vocabulary of the float nearest to a Decimal *)

(** The finite binary64 floats: a mantissa below [2^53] at an exponent from
    [-1074] to [971], and the zeros. *)
Definition binary64 (f : spec_float) : bool :=
  match f with
  | S754_zero _ => true
  | S754_finite _ m e => (Z.pos m <? 2 ^ 53) && (-1074 <=? e) && (e <=? 971)
  | _ => false
  end.

(** Every finite binary64 float is an integer multiple of [2^-1074]: the
    multiple. *)
Definition float_units (f : spec_float) : Z :=
  match f with
  | S754_finite s m e => if s then - (Z.pos m * 2 ^ (e + 1074)) else Z.pos m * 2 ^ (e + 1074)
  | _ => 0
  end.

(** The finite Decimal [coef * 10 ^ exp] as a fraction of integers. *)
Definition decimal_num (coef exp : Z) : Z := if 0 <=? exp then coef * 10 ^ exp else coef.

Definition decimal_den (exp : Z) : Z := if 0 <=? exp then 1 else 10 ^ (- exp).

(** The distance between the Decimal and the float [f], counted in units
    of [2^-1074] divided by the denominator of the Decimal: an integer. *)
Definition float_distance (coef exp : Z) (f : spec_float) : Z :=
  Z.abs (decimal_num coef exp * 2 ^ 1074 - float_units f * decimal_den exp).

(** [f] is a binary64 float nearest to the Decimal, or the infinity of its
    sign when the Decimal lies half a unit in the last place or more beyond
    the largest float, [(2^53 - 1) * 2^971]. *)
Definition nearest_binary64 (coef exp : Z) (f : spec_float) : Prop :=
  (binary64 f = true
   /\ forall g, binary64 g = true -> float_distance coef exp f <= float_distance coef exp g)
  \/ (f = S754_infinity (coef <? 0)
      /\ (2 ^ 54 - 1) * 2 ^ 970 * decimal_den exp <= Z.abs (decimal_num coef exp)).

(** ** Vocabulary of a Decimal in a mapping *)

(** Whether a printer renders a non-empty mapping on one line: the
    Config-Document Printer at depth 4. *)
Definition mapping_inline (cls : printer) (self : encoder) : bool :=
  match cls with
  | InfoJSONEncoder => indentation_level self =? 4
  | _ => false
  end.

(** The encoder as it is when the values of a mapping are encoded. *)
Definition item_encoder (cls : printer) (self : encoder) : encoder :=
  if mapping_inline cls self then self else inside self.

(** The text of a non-empty mapping, the value of an item being rendered as
    [text] tells. *)
Definition mapping_text (cls : printer) (self : encoder) (text : string * value -> string)
    (items : list (string * value)) : string :=
  if mapping_inline cls self
  then inline_mapping_text self text (sorted fst items)
  else expanded_mapping_text self text
         (sorted (fun kv => item_rank cls (indentation_level self) (fst kv)) items).

(** ** A JSON decoder

    The module defines no decoder: the round trip is stated against
    [json.loads], the decoder of the library whose encoder the module
    extends.  [decode] follows the grammar of JSON on the texts it accepts
    and accepts fewer texts than [json.loads]: numbers are the integer
    literals (a literal with a fraction or an exponent is refused, as are
    [NaN] and the infinities); a string holds code points below 256, an
    escape beyond them is refused; a mapping whose text repeats a key is
    refused, where [json.loads] keeps the last item.  A text [decode]
    refuses yields [None]. *)



















(** ** Vocabulary of the round trip *)



(** Two documents are the same tree when they differ by the order of the
    items of their mappings only, as two Python dicts compare. *)
#[local] Unset Elimination Schemes.
#[local] Set Elimination Schemes.








(** * Properties *)

(** ** The method monad *)

Create HintDb restores.

Lemma restores_ret {A} (a : A) : restores (ret a).
Proof. intros self a' self' H. inversion H. reflexivity. Qed.

Lemma restores_raise {A} (e : exn) : restores (@raise A e).
Proof. intros self a self' H. inversion H. Qed.

Lemma restores_read {A} (f : encoder -> A) : restores (read f).
Proof. intros self a self' H. inversion H. reflexivity. Qed.

Lemma restores_lift {A} (o : outcome A) : restores (lift o).
Proof. intros self a self' H. unfold lift in H. inversion H. reflexivity. Qed.

Lemma bind_returns {A B} (m : M A) (k : A -> M B) self b self' :
  bind m k self = (Return b, self') ->
  exists a mid, m self = (Return a, mid) /\ k a mid = (Return b, self').
Proof.
  unfold bind. destruct (m self) as [[a | e] mid]; intro H.
  - exists a, mid. split; [reflexivity | exact H].
  - discriminate H.
Qed.

Lemma restores_bind {A B} (m : M A) (k : A -> M B) :
  restores m -> (forall a, restores (k a)) -> restores (bind m k).
Proof.
  intros Hm Hk self b self' H.
  apply bind_returns in H. destruct H as (a & mid & H1 & H2).
  apply Hm in H1. subst mid. eapply Hk. exact H2.
Qed.

Lemma restores_sequenceM {A} (acts : list (M A)) :
  Forall restores acts -> restores (sequenceM acts).
Proof.
  induction 1 as [| act rest Hact _ IH]; cbn [sequenceM].
  - apply restores_ret.
  - apply restores_bind; [exact Hact |]. intro a.
    apply restores_bind; [exact IH |]. intro others. apply restores_ret.
Qed.

(** Writing the depth: [+= 1] followed by [-= 1] writes the old depth back. *)
Lemma set_level_same self : set_level self (indentation_level self) = self.
Proof. destruct self. reflexivity. Qed.

Lemma set_level_twice self a b : set_level (set_level self a) b = set_level self b.
Proof. reflexivity. Qed.

Lemma restores_shifts {A} (m : M A) : restores m <-> shifts 0 m.
Proof.
  unfold restores, shifts. split; intros H self a self' Hm; apply H in Hm; subst self'.
  - rewrite Z.add_0_r. symmetry. apply set_level_same.
  - rewrite Z.add_0_r. apply set_level_same.
Qed.

Lemma shifts_after {A B} d (m : M A) (k : A -> M B) :
  restores m -> (forall a, shifts d (k a)) -> shifts d (bind m k).
Proof.
  intros Hm Hk self b self' H.
  apply bind_returns in H. destruct H as (a & mid & H1 & H2).
  apply Hm in H1. subst mid. eapply Hk. exact H2.
Qed.

(** [self.indentation_level += e], then a continuation that shifts by [d]. *)
Lemma shifts_bump {A} e d (k : M A) :
  shifts d k -> shifts (e + d) (bump_level e ;;; k).
Proof.
  intros Hk self a self' H.
  apply bind_returns in H. destruct H as ([] & mid & H1 & H2).
  unfold bump_level in H1. inversion H1. subst mid.
  apply Hk in H2. subst self'.
  rewrite set_level_twice. cbn [indentation_level set_level].
  f_equal. lia.
Qed.

#[export] Hint Resolve restores_ret restores_raise restores_read restores_lift
  restores_bind restores_sequenceM : restores.

(** ** Sorting *)

Section SortedFacts.
Context {A : Type} (key : A -> string).

Lemma insert_sorted_perm (x : A) (l : list A) :
  Permutation (x :: l) (insert_sorted key x l).
Proof.
  induction l as [| y ys IH]; cbn [insert_sorted].
  - apply Permutation_refl.
  - destruct (String.leb (key x) (key y)).
    + apply Permutation_refl.
    + eapply perm_trans; [apply perm_swap |]. apply perm_skip. exact IH.
Qed.

Lemma sorted_perm (l : list A) : Permutation l (sorted key l).
Proof.
  induction l as [| x xs IH]; cbn.
  - apply perm_nil.
  - eapply perm_trans; [| apply insert_sorted_perm]. apply perm_skip. exact IH.
Qed.

Lemma sorted_Forall (P : A -> Prop) (l : list A) :
  Forall P l -> Forall P (sorted key l).
Proof.
  intro H. eapply Permutation_Forall; [apply sorted_perm | exact H].
Qed.

End SortedFacts.

(** Sorting commutes with a map that keeps the keys. *)
Lemma insert_sorted_map {A B} (kA : A -> string) (kB : B -> string) (g : A -> B) x l :
  (forall a, kB (g a) = kA a) ->
  insert_sorted kB (g x) (map g l) = map g (insert_sorted kA x l).
Proof.
  intro Hk. induction l as [| y ys IH]; cbn [insert_sorted map].
  - reflexivity.
  - rewrite !Hk. destruct (String.leb (kA x) (kA y)); cbn [map].
    + reflexivity.
    + rewrite IH. reflexivity.
Qed.

Lemma sorted_map {A B} (kA : A -> string) (kB : B -> string) (g : A -> B) l :
  (forall a, kB (g a) = kA a) ->
  sorted kB (map g l) = map g (sorted kA l).
Proof.
  intro Hk. induction l as [| x xs IH]; cbn.
  - reflexivity.
  - unfold sorted in IH. rewrite IH. apply insert_sorted_map. exact Hk.
Qed.

(** The order on keys is a total preorder, and [sorted] sorts by it. *)
Lemma ascii_compare_refl a : Ascii.compare a a = Eq.
Proof. unfold Ascii.compare. apply N.compare_refl. Qed.

Lemma ascii_compare_lt_trans a b c :
  Ascii.compare a b = Lt -> Ascii.compare b c = Lt -> Ascii.compare a c = Lt.
Proof.
  unfold Ascii.compare. rewrite !N.compare_lt_iff. apply N.lt_trans.
Qed.

Lemma string_compare_le_trans s :
  forall t u,
    String.compare s t <> Gt -> String.compare t u <> Gt -> String.compare s u <> Gt.
Proof.
  induction s as [| a s IH]; intros [| b t] [| c u]; cbn [String.compare];
    try congruence.
  destruct (Ascii.compare a b) eqn:Eab; destruct (Ascii.compare b c) eqn:Ebc;
    try congruence.
  - apply Ascii.compare_eq_iff in Eab, Ebc. subst. rewrite ascii_compare_refl. apply IH.
  - apply Ascii.compare_eq_iff in Eab. subst. rewrite Ebc. congruence.
  - apply Ascii.compare_eq_iff in Ebc. subst. rewrite Eab. congruence.
  - rewrite (ascii_compare_lt_trans _ _ _ Eab Ebc). congruence.
Qed.

Lemma string_leb_trans s t u :
  String.leb s t = true -> String.leb t u = true -> String.leb s u = true.
Proof.
  unfold String.leb. intros Hst Htu.
  pose proof (string_compare_le_trans s t u) as H.
  destruct (String.compare s t), (String.compare t u), (String.compare s u);
    try reflexivity; try discriminate; exfalso; apply H; congruence.
Qed.

Section SortedOrder.
Context {A : Type} (key : A -> string).

Lemma insert_sorted_ordered x l :
  StronglySorted (fun a b => String.leb (key a) (key b) = true) l ->
  StronglySorted (fun a b => String.leb (key a) (key b) = true) (insert_sorted key x l).
Proof.
  induction 1 as [| y ys Hys IH Hy]; cbn [insert_sorted].
  - repeat constructor.
  - destruct (String.leb (key x) (key y)) eqn:Exy.
    + constructor; [constructor; assumption |].
      constructor; [exact Exy |].
      eapply Forall_impl; [| exact Hy]. intros z Hz.
      eapply string_leb_trans; eassumption.
    + constructor; [exact IH |].
      eapply Permutation_Forall; [apply insert_sorted_perm |].
      constructor; [| exact Hy].
      destruct (String.leb_total (key x) (key y)) as [H | H]; [congruence | exact H].
Qed.

Lemma sorted_ordered l :
  StronglySorted (fun a b => String.leb (key a) (key b) = true) (sorted key l).
Proof.
  induction l as [| x xs IH]; cbn; [constructor | apply insert_sorted_ordered, IH].
Qed.
End SortedOrder.

(** ** Indentation depth *)

Section Balanced.
Variable rt : runtime.

Lemma restores_encode_decimal d : restores (encode_decimal d).
Proof.
  destruct d as [coef exp | neg |]; cbn [encode_decimal]; auto with restores.
  destruct (decimal_eq_int coef exp (decimal_trunc coef exp)); auto with restores.
Qed.

Lemma restores_super_encode obj : restores (super_encode rt obj).
Proof. unfold super_encode. auto with restores. Qed.

Section BalancedChildren.
Variable encode : value -> M encoded.

Lemma restores_encode_list_inline obj :
  Forall (fun v => restores (encode v)) obj -> restores (encode_list_inline encode obj).
Proof.
  intro H. unfold encode_list_inline.
  apply restores_bind; [| auto with restores].
  apply restores_sequenceM. apply Forall_map. exact H.
Qed.

Lemma restores_encode_list_expanded obj :
  Forall (fun v => restores (encode v)) obj -> restores (encode_list_expanded encode obj).
Proof.
  intro H. unfold encode_list_expanded.
  apply restores_shifts. apply (shifts_bump 1 (-1)).
  apply shifts_after.
  - apply restores_sequenceM. apply Forall_map.
    eapply Forall_impl; [| exact H]. cbn beta. auto with restores.
  - intro output. apply (shifts_bump (-1) 0).
    apply restores_shifts. auto with restores.
Qed.

Lemma restores_item_calls obj :
  Forall (fun kv => restores (encode (snd kv))) obj ->
  Forall (fun kc => restores (snd kc)) (item_calls encode obj).
Proof. intro H. unfold item_calls. apply Forall_map. exact H. Qed.

Lemma restores_info_encode_dict obj :
  Forall (fun kv => restores (encode (snd kv))) obj ->
  restores (info_encode_dict rt encode obj).
Proof.
  intro H. apply restores_item_calls in H.
  unfold info_encode_dict. destruct obj as [| kv obj]; [auto with restores |].
  apply restores_bind; [auto with restores |]. intro level.
  destruct (level =? 4).
  - apply restores_bind; [| auto with restores].
    apply restores_sequenceM, Forall_map, sorted_Forall.
    eapply Forall_impl; [| exact H]. cbn beta. intros kc Hkc.
    pose proof (restores_super_encode (VStr (fst kc))). auto with restores.
  - apply restores_shifts. apply (shifts_bump 1 (-1)).
    apply shifts_after; [auto with restores |]. intro level'.
    apply shifts_after.
    + apply restores_sequenceM, Forall_map, sorted_Forall.
      eapply Forall_impl; [| exact H]. cbn beta. auto with restores.
    + intro output. apply (shifts_bump (-1) 0).
      apply restores_shifts. auto with restores.
Qed.

Lemma restores_keymap_encode_dict obj :
  Forall (fun kv => restores (encode (snd kv))) obj ->
  restores (keymap_encode_dict rt encode obj).
Proof.
  intro H. apply restores_item_calls in H.
  unfold keymap_encode_dict. destruct obj as [| kv obj]; [auto with restores |].
  apply restores_shifts. apply (shifts_bump 1 (-1)).
  apply shifts_after; [auto with restores |]. intro level'.
  apply shifts_after.
  - apply restores_sequenceM, Forall_map, sorted_Forall.
    eapply Forall_impl; [| exact H]. cbn beta. auto with restores.
  - intro output. apply (shifts_bump (-1) 0).
    apply restores_shifts. auto with restores.
Qed.

Lemma restores_layer_rows obj :
  Forall (fun v => restores (encode v)) obj ->
  forall layer, restores (layer_rows rt encode obj layer).
Proof.
  induction 1 as [| key rest Hkey _ IH]; intro layer; cbn [layer_rows].
  - auto with restores.
  - destruct (is_sentinel key); [apply IH |].
    destruct key; try apply IH.
    apply restores_bind; [exact Hkey |]. intro x. apply IH.
Qed.

Lemma restores_keymap_encode_list obj :
  Forall (fun v => restores (encode v)) obj ->
  restores (keymap_encode_list rt encode obj).
Proof.
  intro H. unfold keymap_encode_list.
  apply restores_bind; [auto with restores |]. intro level.
  destruct (level =? 2).
  - apply restores_bind; [apply restores_layer_rows, H | auto with restores].
  - destruct (primitives_only (VList obj)).
    + apply restores_encode_list_inline, H.
    + apply restores_encode_list_expanded, H.
Qed.

Lemma restores_encode_list cls obj :
  Forall (fun v => restores (encode v)) obj ->
  restores (encode_list rt encode cls obj).
Proof.
  intro H. destruct cls; cbn [encode_list]; unfold qmk_encode_list.
  1, 2: destruct (primitives_only (VList obj));
    [apply restores_encode_list_inline, H | apply restores_encode_list_expanded, H].
  apply restores_keymap_encode_list, H.
Qed.

Lemma restores_encode_dict cls obj :
  Forall (fun kv => restores (encode (snd kv))) obj ->
  restores (encode_dict rt encode cls obj).
Proof.
  intro H. destruct cls; cbn [encode_dict].
  - auto with restores.
  - apply restores_info_encode_dict, H.
  - apply restores_keymap_encode_dict, H.
Qed.
End BalancedChildren.

Lemma restores_encode cls obj : restores (encode rt cls obj).
Proof.
  induction obj using value_ind; cbn [encode];
    try apply restores_super_encode.
  - apply restores_encode_decimal.
  - apply restores_encode_list. assumption.
  - apply restores_encode_dict. assumption.
Qed.
End Balanced.

(** C9.  Whenever [encode] returns, on any value, at any depth and for each
    of the three printers, the encoder is as it was before the call: in
    particular [indentation_level] has its value from before the call, every
    [+= 1] having been undone by its [-= 1]. *)
Theorem indentation_level_balanced :
  forall rt cls obj self x self',
    encode rt cls obj self = (Return x, self') ->
    self' = self /\ indentation_level self' = indentation_level self.
Proof.
  intros rt cls obj self x self' H.
  apply restores_encode in H. subst self'. split; reflexivity.
Qed.

Lemma indentation_level_balanced_witness :
  exists (obj : value) (x : encoded),
    forall rt,
      encode rt KeymapJSONEncoder obj (init None true true)
        = (Return x, init None true true)
      /\ indentation_level (init None true true) = 0.
Proof.
  exists (VDict [("layers", VList [VList [VStr "KC_A"; VStr "JSON_NEWLINE"; VStr "KC_B"]]);
                 ("version", VInt 1)]).
  eexists. intro rt.
  assert (H : encode rt KeymapJSONEncoder
                (VDict [("layers", VList [VList [VStr "KC_A"; VStr "JSON_NEWLINE"; VStr "KC_B"]]);
                        ("version", VInt 1)]) (init None true true)
              = (Return (EStr ("{" ++ newline
                   ++ "    " ++ quote_str ++ "version" ++ quote_str ++ ": 1," ++ newline
                   ++ "    " ++ quote_str ++ "layers" ++ quote_str ++ ": [" ++ newline
                   ++ "                [" ++ newline
                   ++ "                        " ++ quote_str ++ "KC_A" ++ quote_str ++ newline
                   ++ "                        " ++ quote_str ++ "KC_B" ++ quote_str ++ newline
                   ++ "                ]" ++ newline
                   ++ "    ]" ++ newline ++ "}")), init None true true))
    by reflexivity.
  split.
  - exact H.
  - exact (proj2 (indentation_level_balanced _ _ _ _ _ _ H)).
Defined.

(** ** The indent width *)

(** C10.  A printer constructed without an indent, or with the indent 0, has
    the indent width 4; constructed with any other width it has that width.
    So the width of a constructed printer is never 0. *)
Theorem init_indent_width :
  forall ascii_only allow,
    indent (init None ascii_only allow) = 4
    /\ indent (init (Some 0) ascii_only allow) = 4
    /\ (forall n, n <> 0 -> indent (init (Some n) ascii_only allow) = n)
    /\ (forall arg, indent (init arg ascii_only allow) <> 0).
Proof.
  intros ascii_only allow. repeat split.
  - intros n Hn. cbn. destruct (Z.eqb_spec n 0); [contradiction | reflexivity].
  - intros [n |]; cbn; [| discriminate].
    destruct (Z.eqb_spec n 0); [discriminate | assumption].
Qed.

Lemma init_indent_width_witness :
  2 <> 0 /\ indent (init (Some 2) true true) = 2.
Proof.
  assert (H : 2 <> 0) by discriminate.
  split.
  - exact H.
  - exact (proj1 (proj2 (proj2 (init_indent_width true true))) 2 H).
Defined.

(** ** Text *)

Lemma count_char_app c s t : count_char c (s ++ t) = (count_char c s + count_char c t)%nat.
Proof.
  induction s as [| c' s IH]; cbn [count_char append]; [reflexivity |].
  rewrite IH. lia.
Qed.


Lemma all_chars_count p c s :
  all_chars p s = true -> p c = false -> count_char c s = O.
Proof.
  intros Hs Hc. induction s as [| c' s IH]; cbn [count_char]; [reflexivity |].
  cbn [all_chars] in Hs. apply andb_true_iff in Hs. destruct Hs as [Hc' Hs].
  rewrite (IH Hs). destruct (Ascii.eqb_spec c c') as [-> |]; [congruence | reflexivity].
Qed.

Lemma all_chars_weaken (p q : ascii -> bool) s :
  (forall c, p c = true -> q c = true) -> all_chars p s = true -> all_chars q s = true.
Proof.
  intros Hpq. induction s as [| c s IH]; cbn [all_chars]; [reflexivity |].
  intro H. apply andb_true_iff in H. destruct H as [Hc Hs].
  rewrite (Hpq _ Hc), (IH Hs). reflexivity.
Qed.



(** A join of parts that are free of [c]: only the separators count. *)
Lemma count_char_join c sep parts :
  Forall (fun part => count_char c part = O) parts ->
  count_char c (join sep parts) = (pred (List.length parts) * count_char c sep)%nat.
Proof.
  unfold join. induction 1 as [| part rest Hpart Hrest IH]; [reflexivity |].
  destruct rest as [| part' rest'].
  - cbn [concat List.length pred]. rewrite Hpart. reflexivity.
  - change (concat sep (part :: part' :: rest'))
      with (part ++ sep ++ concat sep (part' :: rest')).
    rewrite !count_char_app, Hpart, IH. cbn [List.length pred]. lia.
Qed.

Lemma append_assoc (s t u : string) : (s ++ t) ++ u = s ++ t ++ u.
Proof. induction s as [| c s IH]; cbn; [reflexivity | rewrite IH; reflexivity]. Qed.




(** *** Decimal digits *)

Lemma string_of_uint_digits d : all_chars is_digit (NilEmpty.string_of_uint d) = true.
Proof. induction d; cbn; auto. Qed.

Lemma nilzero_string_of_uint_digits d : all_chars is_digit (NilZero.string_of_uint d) = true.
Proof. destruct d; try reflexivity; apply (string_of_uint_digits (_ d)). Qed.

Lemma int_repr_chars n : all_chars digit_or_minus (int_repr n) = true.
Proof.
  unfold int_repr. destruct (Z.to_int n) as [d | d]; cbn [NilZero.string_of_int].
  - eapply all_chars_weaken; [| apply nilzero_string_of_uint_digits].
    intros c Hc. unfold digit_or_minus. rewrite Hc. reflexivity.
  - cbn [all_chars]. rewrite (all_chars_weaken is_digit digit_or_minus).
    + reflexivity.
    + intros c Hc. unfold digit_or_minus. rewrite Hc. reflexivity.
    + apply nilzero_string_of_uint_digits.
Qed.

Lemma count_newlines_int_repr n : count_newlines (int_repr n) = O.
Proof. eapply all_chars_count; [apply int_repr_chars | reflexivity]. Qed.

(** *** Escaped strings *)

Lemma count_newlines_escape_one b c : count_newlines (escape_one b c) = O.
Proof. destruct b; destruct c as [[] [] [] [] [] [] [] []]; reflexivity. Qed.

Lemma count_newlines_escape_body b s : count_newlines (escape_body b s) = O.
Proof.
  induction s as [| c s IH]; cbn [escape_body]; [reflexivity |].
  pose proof (count_newlines_escape_one b c) as Hc.
  unfold count_newlines in *. rewrite count_char_app, IH, Hc. reflexivity.
Qed.

Lemma count_newlines_string_encoder b s : count_newlines (string_encoder b s) = O.
Proof.
  unfold string_encoder, encode_basestring_ascii, encode_basestring, count_newlines.
  destruct b; rewrite !count_char_app, (count_newlines_escape_body _ s); reflexivity.
Qed.

(** ** Runs that return *)

Lemma bind_run {A B} (m : M A) (k : A -> M B) self a mid :
  m self = (Return a, mid) -> bind m k self = k a mid.
Proof. intro H. unfold bind. rewrite H. reflexivity. Qed.

Lemma returns_at_bind {A B} (m : M A) (k : A -> M B) self (P : A -> Prop) (Q : B -> Prop) :
  returns_at m self P -> (forall a, P a -> returns_at (k a) self Q) ->
  returns_at (bind m k) self Q.
Proof.
  intros (a & Hm & Ha) Hk. destruct (Hk a Ha) as (b & Hb & HQ).
  exists b. split; [| exact HQ]. rewrite (bind_run _ _ _ _ _ Hm). exact Hb.
Qed.


Lemma returns_at_sequenceM {A} (acts : list (M A)) self (P : A -> Prop) :
  Forall (fun act => returns_at act self P) acts ->
  returns_at (sequenceM acts) self
    (fun l => Forall P l /\ List.length l = List.length acts).
Proof.
  induction 1 as [| act rest Hact _ IH]; cbn [sequenceM].
  - exists []. repeat split. constructor.
  - eapply returns_at_bind; [exact Hact |]. intros a Ha.
    eapply returns_at_bind; [exact IH |]. intros others [Hothers Hlen].
    exists (a :: others). repeat split.
    + constructor; assumption.
    + cbn [List.length]. rewrite Hlen. reflexivity.
Qed.

Lemma all_str_map_EStr ss : all_str (map EStr ss) = Return ss.
Proof.
  induction ss as [| s ss IH]; cbn [map all_str]; [reflexivity |].
  rewrite IH. reflexivity.
Qed.

(** A list of results that are all texts with property [P]. *)
Lemma Forall_texts (P : string -> Prop) xs :
  Forall (fun x => exists s, x = EStr s /\ P s) xs ->
  exists ss, xs = map EStr ss /\ Forall P ss.
Proof.
  induction 1 as [| x xs (s & -> & Hs) _ (ss & -> & Hss)].
  - exists []. split; [reflexivity | constructor].
  - exists (s :: ss). split; [reflexivity | constructor; assumption].
Qed.

(** ** Layout of a mapping *)

Section MappingLayout.
Variable rt : runtime.

(** A text scalar encodes to a text without a line break, for every printer. *)
Lemma text_scalar_encode cls v self :
  text_scalar v = true ->
  returns_at (encode rt cls v) self
    (fun x => exists s, x = EStr s /\ count_newlines s = O).
Proof.
  destruct v as [| [] | n | f | s | d | l | items]; try discriminate; intros _;
    (eexists; split; [reflexivity |]; eexists; split; [reflexivity |]);
    try reflexivity.
  - apply count_newlines_int_repr.
  - apply count_newlines_string_encoder.
Qed.


Lemma primitives_only_text_scalars l :
  forallb text_scalar l = true -> primitives_only (VList l) = true.
Proof.
  intro H. unfold primitives_only. apply negb_true_iff.
  induction l as [| v l IH]; [reflexivity |].
  cbn [forallb] in H. apply andb_true_iff in H. destruct H as [Hv Hl].
  cbn [existsb]. rewrite (IH Hl). destruct v; try discriminate; reflexivity.
Qed.

(** An inline sequence of text scalars is a single line. *)
Lemma inline_list_encode cls l self :
  forallb text_scalar l = true ->
  returns_at (encode_list_inline (encode rt cls) l) self
    (fun x => exists s, x = EStr s /\ count_newlines s = O).
Proof.
  intro Hl. unfold encode_list_inline.
  eapply returns_at_bind.
  - apply returns_at_sequenceM. apply Forall_map. apply Forall_forall.
    intros v Hv. apply text_scalar_encode.
    rewrite forallb_forall in Hl. apply Hl, Hv.
  - cbn beta. intros parts [Hparts _].
    apply Forall_texts in Hparts. destruct Hparts as (ss & -> & Hss).
    unfold join_encoded. rewrite all_str_map_EStr.
    eexists. split; [reflexivity |]. eexists. split; [reflexivity |].
    unfold count_newlines in *. rewrite !count_char_app, (count_char_join _ _ _ Hss).
    cbn. lia.
Qed.


Lemma super_encode_str s self :
  super_encode rt (VStr s) self
    = (Return (EStr (string_encoder (ensure_ascii self) s)), self).
Proof. reflexivity. Qed.

Lemma bind_read {A B} (f : encoder -> A) (k : A -> M B) self :
  bind (read f) k self = k (f self) self.
Proof. reflexivity. Qed.

Lemma bind_bump {B} d (k : unit -> M B) self :
  bind (bump_level d) k self = k tt (set_level self (indentation_level self + d)).
Proof. reflexivity. Qed.

Lemma set_level_undo self d :
  set_level (set_level self (indentation_level self + d))
            (indentation_level (set_level self (indentation_level self + d)) + - d) = self.
Proof.
  rewrite set_level_twice. cbn [indentation_level set_level].
  replace (indentation_level self + d + - d) with (indentation_level self) by lia.
  apply set_level_same.
Qed.





End MappingLayout.




(** ** Rows of a keymap layer *)

Section LayerRows.
Variable rt : runtime.
Variable encode : value -> M encoded.

Lemma append_to_last_snoc rows row cell :
  append_to_last (rows ++ [row])%list cell = (rows ++ [(row ++ [cell])%list])%list.
Proof.
  induction rows as [| r rows IH]; [reflexivity |].
  cbn [app append_to_last]. rewrite IH.
  destruct rows; reflexivity.
Qed.

Lemma split_rows_nonempty obj : split_rows obj <> [].
Proof.
  destruct obj as [| key rest]; cbn [split_rows]; [discriminate |].
  destruct (is_sentinel key); [discriminate |].
  destruct (split_rows rest); discriminate.
Qed.

(** The loop, started on a layer whose last row is [row], ends with the rows
    of [split_rows], the first of them appended to [row]. *)
Lemma layer_rows_split obj :
  Forall (fun key => is_dict key = false) obj ->
  forall rows row self,
    layer_rows rt encode obj (rows ++ [row])%list self
    = (Return
         (rows ++
            match map (map (quoted rt)) (split_rows obj) with
            | first :: others => (row ++ first)%list :: others
            | [] => [row]
            end)%list,
       self).
Proof.
  induction 1 as [| key rest Hkey _ IH]; intros rows row self; cbn [layer_rows split_rows].
  - cbn [map]. rewrite app_nil_r. reflexivity.
  - destruct (is_sentinel key) eqn:Esent.
    + rewrite (IH (rows ++ [row])%list [] self). cbn [map].
      rewrite app_nil_r, <- app_assoc. cbn [app].
      destruct (map (map (quoted rt)) (split_rows rest)) as [| first others] eqn:E.
      * apply map_eq_nil in E. destruct (split_rows_nonempty _ E).
      * reflexivity.
    + assert (Hstep : forall layer,
                 match key with
                 | VDict _ =>
                     x <- encode key ;;
                     layer_rows rt encode rest (append_to_last layer (format_encoded rt x))
                 | _ =>
                     layer_rows rt encode rest
                       (append_to_last layer (quote_str ++ py_str rt key ++ quote_str))
                 end = layer_rows rt encode rest (append_to_last layer (quoted rt key))).
      { intro layer. destruct key; try reflexivity. discriminate Hkey. }
      rewrite Hstep, append_to_last_snoc, IH.
      destruct (split_rows rest) as [| first others] eqn:E.
      * destruct (split_rows_nonempty _ E).
      * cbn [map]. rewrite <- app_assoc. reflexivity.
Qed.
End LayerRows.

(** The layer of a keymap, encoded at depth 2. *)
Lemma keymap_layer_text rt obj self :
  indentation_level self = 2 ->
  Forall (fun key => is_dict key = false) obj ->
  encode rt KeymapJSONEncoder (VList obj) self
  = (Return (EStr (indent_str self
                     ++ layer_text rt (str_mul (indent_str self) 3)
                                   (str_mul (indent_str self) 2) obj)),
     self).
Proof.
  intros Hlevel Hobj. cbn [encode encode_list]. unfold keymap_encode_list.
  rewrite bind_read, Hlevel. cbn [Z.eqb Pos.eqb].
  rewrite (bind_run _ _ _ _ _ (layer_rows_split rt _ obj Hobj [] [] self)).
  rewrite !bind_read, Hlevel. cbn [app].
  destruct (map (map (quoted rt)) (split_rows obj)) as [| first others] eqn:E.
  { apply map_eq_nil in E. destruct (split_rows_nonempty _ E). }
  rewrite <- E. unfold layer_text. rewrite map_map. reflexivity.
Qed.




(** ** Scalars in a keymap layer *)

(** C6.  The Keymap-Document Printer on the document whose key [layers]
    holds one layer with the elements [a_quote_b], [True] and [None]: the
    layer is row-grouped, and its elements are put between quotes as [str]
    renders them, the quote inside the string unescaped, the boolean as
    ["True"] and null as ["None"]; the same sequence at depth 0, where its
    elements go through [encode], holds the JSON texts of the three scalars:
    the string with its quote escaped by a backslash, [true] and [null]. *)
Theorem keymap_layer_scalars_not_json :
  (forall rt,
     encode rt KeymapJSONEncoder
       (VDict [("layers", VList [VList [VStr a_quote_b; VBool true; VNone]])])
       (init None true true)
     = (Return (EStr ("{" ++ newline
                  ++ "    " ++ quote_str ++ "layers" ++ quote_str ++ ": [" ++ newline
                  ++ str_mul " " 16 ++ "[" ++ newline
                  ++ str_mul " " 24
                  ++ quote_str ++ "a" ++ quote_str ++ "b" ++ quote_str ++ ", "
                  ++ quote_str ++ "True" ++ quote_str ++ ", "
                  ++ quote_str ++ "None" ++ quote_str ++ newline
                  ++ str_mul " " 16 ++ "]" ++ newline
                  ++ "    ]" ++ newline ++ "}")),
        init None true true))
  /\ (forall rt,
        encode rt KeymapJSONEncoder (VList [VStr a_quote_b; VBool true; VNone])
          (init None true true)
        = (Return (EStr ("[" ++ quote_str ++ "a\" ++ quote_str ++ "b" ++ quote_str
                             ++ ", true, null]")),
           init None true true)).
Proof. split; intro rt; reflexivity. Qed.

(** ** Key order *)

(** At depth 1 both schema printers rank a key they do not name as ["50"]
    followed by the key. *)
Lemma info_default_tier key :
  ~ In key info_priority_keys -> info_sort_dict 1 key = "50" ++ key.
Proof.
  intro H. unfold info_sort_dict. cbn [Z.eqb Pos.eqb].
  repeat match goal with
         | |- context [String.eqb key ?k] =>
             destruct (String.eqb_spec key k) as [-> |];
             [exfalso; apply H; cbn; tauto |]
         end.
  reflexivity.
Qed.

Lemma keymap_default_tier key :
  ~ In key keymap_priority_keys -> keymap_sort_dict 1 key = "50" ++ key.
Proof.
  intro H. unfold keymap_sort_dict. cbn [Z.eqb Pos.eqb].
  repeat match goal with
         | |- context [String.eqb key ?k] =>
             destruct (String.eqb_spec key k) as [-> |];
             [exfalso; apply H; cbn; tauto |]
         end.
  reflexivity.
Qed.

(** C8.  At depth 1 the rank of an unrecognized key, ["50"] followed by the
    key, lies strictly between the ranks of the leading and of the trailing
    priority keys of either schema printer, and two such ranks compare as
    the keys do.  At depth 2 of the Config-Document Printer the rank of an
    unrecognized key is the key itself: on the document whose key [usb]
    holds the keys [pid], [11] and [vid], the rank of [11] lies strictly
    between the ranks of [vid] and [pid], and the key is emitted between
    them. *)
Theorem info_depth2_rank_interleaves :
  (forall key,
     String.ltb "16bootloader" ("50" ++ key) = true
     /\ String.ltb ("50" ++ key) "97community_layouts" = true
     /\ String.ltb "02notes" ("50" ++ key) = true
     /\ String.ltb ("50" ++ key) "98layers" = true)
  /\ (forall key key', String.compare ("50" ++ key) ("50" ++ key') = String.compare key key')
  /\ info_sort_dict 1 "11" = "5011"
  /\ info_sort_dict 2 "vid" = "10vid"
  /\ info_sort_dict 2 "11" = "11"
  /\ info_sort_dict 2 "pid" = "11pid"
  /\ String.ltb (info_sort_dict 2 "vid") (info_sort_dict 2 "11") = true
  /\ String.ltb (info_sort_dict 2 "11") (info_sort_dict 2 "pid") = true
  /\ (forall rt,
        encode rt InfoJSONEncoder
          (VDict [("usb", VDict [("pid", VStr "0x2"); ("11", VStr "x"); ("vid", VStr "0x1")])])
          (init None true true)
        = (Return (EStr ("{" ++ newline
             ++ "    " ++ quote_str ++ "usb" ++ quote_str ++ ": {" ++ newline
             ++ "        " ++ quote_str ++ "vid" ++ quote_str ++ ": "
                           ++ quote_str ++ "0x1" ++ quote_str ++ "," ++ newline
             ++ "        " ++ quote_str ++ "11" ++ quote_str ++ ": "
                           ++ quote_str ++ "x" ++ quote_str ++ "," ++ newline
             ++ "        " ++ quote_str ++ "pid" ++ quote_str ++ ": "
                           ++ quote_str ++ "0x2" ++ quote_str ++ newline
             ++ "    }" ++ newline ++ "}")),
           init None true true)).
Proof. repeat split. Qed.

(** C4.  The Config-Document Printer on the mapping of the specification's
    example emits [manufacturer], [bootloader], [usb], [layouts] at depth 1
    and [vid], [pid] inside [usb]; on
    [{"usb": {"pid": 1, "vid": 2, "0001": 3}}] it emits the unrecognized key
    ["0001"] before [vid] and [pid]. *)
Theorem info_key_order_examples :
  (forall rt,
     encode rt InfoJSONEncoder
       (VDict [("layouts", VDict []); ("manufacturer", VStr "X");
               ("usb", VDict [("pid", VInt 1); ("vid", VInt 2)]);
               ("bootloader", VStr "b")])
       (init None true true)
     = (Return (EStr ("{" ++ newline
          ++ "    " ++ quote_str ++ "manufacturer" ++ quote_str ++ ": "
                    ++ quote_str ++ "X" ++ quote_str ++ "," ++ newline
          ++ "    " ++ quote_str ++ "bootloader" ++ quote_str ++ ": "
                    ++ quote_str ++ "b" ++ quote_str ++ "," ++ newline
          ++ "    " ++ quote_str ++ "usb" ++ quote_str ++ ": {" ++ newline
          ++ "        " ++ quote_str ++ "vid" ++ quote_str ++ ": 2," ++ newline
          ++ "        " ++ quote_str ++ "pid" ++ quote_str ++ ": 1" ++ newline
          ++ "    }," ++ newline
          ++ "    " ++ quote_str ++ "layouts" ++ quote_str ++ ": {}" ++ newline
          ++ "}")),
        init None true true))
  /\ (forall rt,
        encode rt InfoJSONEncoder
          (VDict [("usb", VDict [("pid", VInt 1); ("vid", VInt 2); ("0001", VInt 3)])])
          (init None true true)
        = (Return (EStr ("{" ++ newline
             ++ "    " ++ quote_str ++ "usb" ++ quote_str ++ ": {" ++ newline
             ++ "        " ++ quote_str ++ "0001" ++ quote_str ++ ": 3," ++ newline
             ++ "        " ++ quote_str ++ "vid" ++ quote_str ++ ": 2," ++ newline
             ++ "        " ++ quote_str ++ "pid" ++ quote_str ++ ": 1" ++ newline
             ++ "    }" ++ newline ++ "}")),
           init None true true)).
Proof. split; intro rt; reflexivity. Qed.

(** ** [KLEJSONEncoder] and whole floats *)

(** C2.  [KLEJSONEncoder().encode] on the float 2.0, at the root, in a
    sequence and as a mapping value: with the C accelerator present the
    one-shot path formats it with [float.__repr__], as the stock encoder
    does; [iterencode] without [_one_shot], and [encode] where the
    accelerator is missing, emit [2]. *)
Theorem kle_one_shot_float :
  forall rt,
    kle_encode rt true kle_default (VFloat float_two) = Return (float_repr rt float_two)
    /\ kle_encode rt true kle_default (VList [VFloat float_two; VInt 2])
       = Return ("[" ++ float_repr rt float_two ++ ", 2]")
    /\ kle_encode rt true kle_default (VDict [("w", VFloat float_two)])
       = Return ("{" ++ quote_str ++ "w" ++ quote_str ++ ": "
                     ++ float_repr rt float_two ++ "}")
    /\ kle_iterencode rt true kle_default (VFloat float_two) false = Return "2"
    /\ kle_iterencode rt true kle_default (VList [VFloat float_two; VInt 2]) false
       = Return "[2, 2]"
    /\ kle_encode rt false kle_default (VDict [("w", VFloat float_two)])
       = Return ("{" ++ quote_str ++ "w" ++ quote_str ++ ": 2}").
Proof.
  intro rt. repeat split; cbn; rewrite ?append_assoc; reflexivity.
Qed.

(** ** Decimals *)

(** [int(d)] and [d == int(d)] read as arithmetic: a finite Decimal is whole
    when its exponent is not negative or its coefficient is a multiple of the
    power of ten, and the integer is then the exact value. *)
Lemma decimal_whole_spec coef exp :
  decimal_eq_int coef exp (decimal_trunc coef exp) = true
  <-> (0 <= exp \/ coef mod 10 ^ (- exp) = 0).
Proof.
  unfold decimal_eq_int, decimal_trunc.
  destruct (Z.leb_spec 0 exp) as [Hexp | Hexp].
  - rewrite Z.eqb_refl. split; auto.
  - assert (Hpow : 0 < 10 ^ (- exp)) by (apply Z.pow_pos_nonneg; lia).
    rewrite Z.eqb_eq. split.
    + intro H. right. rewrite H. apply Z.mod_mul. lia.
    + intros [H | H]; [lia |].
      apply Z.mod_divide in H; [| lia]. destruct H as [q ->].
      rewrite Z.quot_mul; lia.
Qed.

(** * Further properties *)

(** ** Runs of a list of calls *)

Lemma sequenceM_map_run {X A} (f : X -> M A) (g : X -> A) (l : list X) self :
  Forall (fun x => f x self = (Return (g x), self)) l ->
  sequenceM (map f l) self = (Return (map g l), self).
Proof.
  induction 1 as [| x l Hx _ IH]; cbn [map sequenceM]; [reflexivity |].
  rewrite (bind_run _ _ _ _ _ Hx), (bind_run _ _ _ _ _ IH). reflexivity.
Qed.

(** A run of calls that restore the encoder returns only if each call
    returns, on the encoder the run started from. *)
Lemma sequenceM_returns_inv {X A} (f : X -> M A) (l : list X) self ys self' :
  Forall (fun x => restores (f x)) l ->
  sequenceM (map f l) self = (Return ys, self') ->
  self' = self /\ Forall2 (fun x y => f x self = (Return y, self)) l ys.
Proof.
  intro Hl. revert ys self'.
  induction Hl as [| x rest Hx _ IH]; intros ys self' H.
  - inversion H. split; [reflexivity | constructor].
  - cbn [map sequenceM] in H.
    apply bind_returns in H. destruct H as (a & mid & H1 & H).
    pose proof (Hx _ _ _ H1) as ->.
    apply bind_returns in H. destruct H as (others & mid' & H2 & H).
    destruct (IH _ _ H2) as [-> Hothers]. inversion H. subst.
    split; [reflexivity |]. constructor; assumption.
Qed.

(** ** Sequences: inline or expanded *)

Lemma text_scalar_run rt cls v self :
  text_scalar v = true ->
  encode rt cls v self = (Return (EStr (text_scalar_text (ensure_ascii self) v)), self).
Proof. destruct v as [| [] | | | | | |]; try discriminate; reflexivity. Qed.

Lemma encode_list_inline_run rt cls l self :
  forallb text_scalar l = true ->
  encode_list_inline (encode rt cls) l self
  = (Return (EStr ("[" ++ join ", " (map (text_scalar_text (ensure_ascii self)) l) ++ "]")),
     self).
Proof.
  intro Hl. unfold encode_list_inline.
  rewrite bind_run
    with (a := map (fun v => EStr (text_scalar_text (ensure_ascii self) v)) l) (mid := self).
  - rewrite <- (map_map (text_scalar_text (ensure_ascii self)) EStr).
    unfold join_encoded. rewrite all_str_map_EStr. reflexivity.
  - apply sequenceM_map_run. apply Forall_forall. intros v Hv.
    apply text_scalar_run. rewrite forallb_forall in Hl. apply Hl, Hv.
Qed.

(** X1.  A sequence whose elements are strings, booleans, nulls and
    integers is rendered on one line, as the JSON texts of its elements
    between brackets and separated by a comma and a space, whatever the
    depth; the Keymap-Document Printer does so at every depth but 2. *)
Theorem sequence_of_scalars_inline :
  forall rt cls self l,
    forallb text_scalar l = true ->
    (cls = KeymapJSONEncoder -> indentation_level self <> 2) ->
    encode rt cls (VList l) self
    = (Return (EStr ("[" ++ join ", " (map (text_scalar_text (ensure_ascii self)) l) ++ "]")),
       self)
    /\ count_newlines ("[" ++ join ", " (map (text_scalar_text (ensure_ascii self)) l) ++ "]")
       = O.
Proof.
  intros rt cls self l Hl Hcls. split.
  - cbn [encode]. destruct cls; cbn [encode_list]; unfold qmk_encode_list, keymap_encode_list.
    1, 2: rewrite (primitives_only_text_scalars _ Hl); apply encode_list_inline_run, Hl.
    rewrite bind_read.
    destruct (Z.eqb_spec (indentation_level self) 2) as [E | _]; [destruct (Hcls eq_refl E) |].
    rewrite (primitives_only_text_scalars _ Hl). apply encode_list_inline_run, Hl.
  - destruct (inline_list_encode rt InfoJSONEncoder l self Hl) as (x & Hx & s & -> & Hs).
    rewrite encode_list_inline_run in Hx by exact Hl. inversion Hx. subst s. exact Hs.
Qed.

Lemma sequence_of_scalars_inline_witness :
  forallb text_scalar [VInt 0; VStr "KC_A"; VBool true; VNone] = true
  /\ (KeymapJSONEncoder = KeymapJSONEncoder ->
      indentation_level (set_level (init None true true) 3) <> 2)
  /\ forall rt,
       encode rt KeymapJSONEncoder (VList [VInt 0; VStr "KC_A"; VBool true; VNone])
         (set_level (init None true true) 3)
       = (Return (EStr ("[0, " ++ quote_str ++ "KC_A" ++ quote_str ++ ", true, null]")),
          set_level (init None true true) 3).
Proof.
  assert (Hl : forallb text_scalar [VInt 0; VStr "KC_A"; VBool true; VNone] = true)
    by reflexivity.
  assert (Hcls : KeymapJSONEncoder = KeymapJSONEncoder ->
                 indentation_level (set_level (init None true true) 3) <> 2)
    by (intros _; discriminate).
  split; [exact Hl |]. split; [exact Hcls |]. intro rt.
  exact (proj1 (sequence_of_scalars_inline rt KeymapJSONEncoder _ _ Hl Hcls)).
Defined.




(** ** The documents [encode] returns on *)

Lemma all_str_texts xs ss : all_str xs = Return ss -> xs = map EStr ss.
Proof.
  revert ss. induction xs as [| [s | n | f] xs IH]; cbn [all_str]; intros ss H;
    try discriminate H.
  - inversion H. reflexivity.
  - destruct (all_str xs) as [ss' |]; [| discriminate H].
    inversion H. cbn [map]. f_equal. apply IH. reflexivity.
Qed.

Lemma sequenceM_texts {X} (f : X -> M encoded) l self :
  Forall (fun x => exists s, f x self = (Return (EStr s), self)) l ->
  exists ss, sequenceM (map f l) self = (Return (map EStr ss), self).
Proof.
  induction 1 as [| x l (s & Hs) _ (ss & IH)].
  - exists []. reflexivity.
  - exists (s :: ss). cbn [map sequenceM].
    rewrite (bind_run _ _ _ _ _ Hs), (bind_run _ _ _ _ _ IH). reflexivity.
Qed.

Lemma Forall2_in_left {X Y} (R : X -> Y -> Prop) l ys x :
  Forall2 R l ys -> In x l -> exists y, In y ys /\ R x y.
Proof.
  induction 1 as [| x' y' l ys Hxy _ IH]; intro Hin; [destruct Hin |].
  destruct Hin as [-> | Hin].
  - exists y'. split; [left; reflexivity | exact Hxy].
  - destruct (IH Hin) as (y & Hy & HR). exists y. split; [right; exact Hy | exact HR].
Qed.

Lemma Forall2_Forall_left {X Y} (R : X -> Y -> Prop) (P : X -> Prop) l ys :
  (forall x y, R x y -> P x) -> Forall2 R l ys -> Forall P l.
Proof. intros HRP. induction 1; constructor; eauto. Qed.

(** Outside the row-grouped sequences the three printers share
    [encode_list]. *)
Lemma encode_list_plain rt enc cls l self :
  row_grouped cls (indentation_level self) = false ->
  encode_list rt enc cls l self
  = (if primitives_only (VList l) then encode_list_inline enc l self
     else encode_list_expanded enc l self).
Proof.
  intro H. destruct cls; cbn [encode_list row_grouped] in *;
    unfold qmk_encode_list, keymap_encode_list.
  1, 2: destruct (primitives_only (VList l)); reflexivity.
  rewrite bind_read, H. destruct (primitives_only (VList l)); reflexivity.
Qed.

Lemma layer_rows_returns rt enc l self :
  Forall (fun key => is_dict key = true -> exists x, enc key self = (Return x, self)) l ->
  forall layer, exists rows, layer_rows rt enc l layer self = (Return rows, self).
Proof.
  induction 1 as [| key rest Hkey _ IH]; intro layer; cbn [layer_rows].
  - eexists. reflexivity.
  - destruct (is_sentinel key); [apply IH |].
    destruct key; try apply IH.
    destruct (Hkey eq_refl) as (x & Hx). rewrite (bind_run _ _ _ _ _ Hx). apply IH.
Qed.

Lemma layer_rows_returns_inv rt enc l :
  Forall (fun key => restores (enc key)) l ->
  forall layer self rows self',
    layer_rows rt enc l layer self = (Return rows, self') ->
    Forall (fun key => is_dict key = true -> exists x, enc key self = (Return x, self)) l.
Proof.
  induction 1 as [| key rest Hkey _ IH]; intros layer self rows self' H;
    cbn [layer_rows] in H.
  - constructor.
  - destruct (is_sentinel key) eqn:Hs.
    + constructor; [| eapply IH; exact H].
      destruct key; cbn in Hs |- *; try discriminate Hs. intro Hd. discriminate Hd.
    + destruct key;
        try (constructor; [intro Hd; discriminate Hd | eapply IH; exact H]).
      apply bind_returns in H. destruct H as (x & mid & H1 & H).
      pose proof (Hkey _ _ _ H1) as ->.
      constructor; [intros _; eexists; exact H1 | eapply IH; exact H].
Qed.

(** A Decimal is handed back as a number, never as a text. *)
Lemma decimal_not_text rt cls d self s self' :
  encode rt cls (VDecimal d) self <> (Return (EStr s), self').
Proof.
  cbn [encode]. destruct d as [coef exp | neg |]; cbn [encode_decimal];
    unfold raise, ret; try discriminate.
  destruct (decimal_eq_int coef exp (decimal_trunc coef exp)); discriminate.
Qed.

Ltac text_tail H :=
  repeat first
    [ apply bind_returns in H; destruct H as (? & ? & _ & H)
    | match type of H with
      | context [if ?c then _ else _] => destruct c
      end ];
  inversion H; eexists; reflexivity.

(** Everything else is returned as a text. *)
Lemma encode_text rt cls v self x self' :
  is_decimal v = false ->
  encode rt cls v self = (Return x, self') -> exists s, x = EStr s.
Proof.
  intros Hv H. destruct v as [| b | n | f | s | d | l | items]; try discriminate Hv;
    cbn [encode] in H.
  1, 2, 3, 4, 5: unfold super_encode in H; text_tail H.
  - destruct cls; cbn [encode_list] in H;
      unfold qmk_encode_list, keymap_encode_list, encode_list_inline,
        encode_list_expanded in H; text_tail H.
  - destruct cls; cbn [encode_dict] in H;
      unfold info_encode_dict, keymap_encode_dict in H;
      destruct items; text_tail H.
Qed.

Lemma encodable_returns rt cls v :
  forall self,
    encodable cls (allow_nan self) (indentation_level self) v = true ->
    exists x, encode rt cls v self = (Return x, self).
Proof.
  induction v as [| b | n | f | s | d | l IH | items IH] using value_ind;
    intros self Henc; cbn [encode].
  - eexists. reflexivity.
  - destruct b; eexists; reflexivity.
  - eexists. reflexivity.
  - unfold super_encode. rewrite bind_read. cbn [encode_scalar].
    destruct f as [sg | sg | | sg m e]; cbn [encodable stock_floatstr] in *;
      try rewrite Henc; try destruct sg; eexists; reflexivity.
  - eexists. reflexivity.
  - destruct d as [coef exp | neg |]; try discriminate Henc. cbn [encode_decimal].
    destruct (decimal_eq_int coef exp (decimal_trunc coef exp)); eexists; reflexivity.
  - cbn [encodable] in Henc. rewrite Forall_forall in IH.
    destruct (row_grouped cls (indentation_level self)) eqn:Hrow;
      rewrite forallb_forall in Henc.
    + destruct cls; try discriminate Hrow. cbn [row_grouped] in Hrow.
      cbn [encode_list]. unfold keymap_encode_list. rewrite bind_read, Hrow.
      destruct (layer_rows_returns rt (encode rt KeymapJSONEncoder) l self) with (layer := [[] : list string])
        as (rows & Hrows).
      { apply Forall_forall. intros key Hin Hd. apply (IH key Hin).
        specialize (Henc _ Hin). rewrite Hd in Henc. exact Henc. }
      rewrite (bind_run _ _ _ _ _ Hrows). eexists. reflexivity.
    + rewrite encode_list_plain by exact Hrow. unfold element_level in Henc.
      destruct (primitives_only (VList l)).
      * unfold encode_list_inline.
        destruct (sequenceM_texts (encode rt cls) l self) as (ss & Hss).
        { apply Forall_forall. intros v Hv. specialize (Henc _ Hv).
          apply andb_true_iff in Henc. destruct Henc as [Hdec Henc].
          destruct (IH v Hv self Henc) as (x & Hx).
          destruct (encode_text rt cls v self x self) as (s & ->);
            [destruct (is_decimal v); [discriminate Hdec | reflexivity] | exact Hx |].
          exists s. exact Hx. }
        rewrite (bind_run _ _ _ _ _ Hss). unfold join_encoded.
        rewrite all_str_map_EStr. eexists. reflexivity.
      * unfold encode_list_expanded. rewrite bind_bump.
        set (self1 := set_level self (indentation_level self + 1)).
        destruct (returns_at_sequenceM
                    (map (fun element =>
                            pre <- read indent_str ;;
                            x <- encode rt cls element ;;
                            lift (str_add pre x)) l)
                    self1 (fun _ => True))
          as (lines & Hrun & _).
        { apply Forall_map. apply Forall_forall. intros v Hv. specialize (Henc _ Hv).
          apply andb_true_iff in Henc. destruct Henc as [Hdec Henc].
          destruct (IH v Hv self1 Henc) as (x & Hx).
          destruct (encode_text rt cls v self1 x self1) as (s & ->);
            [destruct (is_decimal v); [discriminate Hdec | reflexivity] | exact Hx |].
          exists (indent_str self1 ++ s). split; [| exact I].
          rewrite bind_read, (bind_run _ _ _ _ _ Hx). reflexivity. }
        rewrite (bind_run _ _ _ _ _ Hrun), bind_bump.
        subst self1. rewrite set_level_undo, bind_read. eexists. reflexivity.
  - cbn [encodable] in Henc.
    destruct cls; [discriminate Henc | |]; cbn [encode_dict item_level] in *;
      rewrite forallb_forall in Henc; rewrite Forall_forall in IH.
    + unfold info_encode_dict. destruct items as [| kv items]; [eexists; reflexivity |].
      rewrite bind_read. destruct (indentation_level self =? 4).
      * destruct (returns_at_sequenceM
                    (map (fun kc : string * M encoded =>
                            k <- super_encode rt (VStr (fst kc)) ;;
                            x <- snd kc ;;
                            ret (format_encoded rt k ++ ": " ++ format_encoded rt x))
                         (sorted fst (item_calls (encode rt InfoJSONEncoder) (kv :: items))))
                    self (fun _ => True))
          as (parts & Hrun & _).
        { apply Forall_map, sorted_Forall. unfold item_calls. apply Forall_map.
          apply Forall_forall. intros kv' Hin. cbn [fst snd].
          destruct (IH kv' Hin self (Henc _ Hin)) as (x & Hx).
          eexists. split; [| exact I].
          rewrite (bind_run _ _ _ _ _ (super_encode_str rt _ self)).
          rewrite (bind_run _ _ _ _ _ Hx). reflexivity. }
        rewrite (bind_run _ _ _ _ _ Hrun). eexists. reflexivity.
      * rewrite bind_bump.
        set (self1 := set_level self (indentation_level self + 1)).
        rewrite bind_read.
        destruct (returns_at_sequenceM
                    (map (fun kc : string * M encoded =>
                            pre <- read indent_str ;;
                            x <- snd kc ;;
                            ret (pre ++ json_dumps_str (fst kc) ++ ": "
                                     ++ format_encoded rt x))
                         (sorted (fun kc => info_sort_dict (indentation_level self1) (fst kc))
                                 (item_calls (encode rt InfoJSONEncoder) (kv :: items))))
                    self1 (fun _ => True))
          as (lines & Hrun & _).
        { apply Forall_map, sorted_Forall. unfold item_calls. apply Forall_map.
          apply Forall_forall. intros kv' Hin. cbn [fst snd].
          destruct (IH kv' Hin self1 (Henc _ Hin)) as (x & Hx).
          eexists. split; [| exact I].
          rewrite bind_read, (bind_run _ _ _ _ _ Hx). reflexivity. }
        rewrite (bind_run _ _ _ _ _ Hrun), bind_bump.
        subst self1. rewrite set_level_undo, bind_read. eexists. reflexivity.
    + unfold keymap_encode_dict. destruct items as [| kv items]; [eexists; reflexivity |].
      rewrite bind_bump.
      set (self1 := set_level self (indentation_level self + 1)).
      rewrite bind_read.
      destruct (returns_at_sequenceM
                  (map (fun kc : string * M encoded =>
                          pre <- read indent_str ;;
                          x <- snd kc ;;
                          ret (pre ++ json_dumps_str (fst kc) ++ ": "
                                   ++ format_encoded rt x))
                       (sorted (fun kc => keymap_sort_dict (indentation_level self1) (fst kc))
                               (item_calls (encode rt KeymapJSONEncoder) (kv :: items))))
                  self1 (fun _ => True))
        as (lines & Hrun & _).
      { apply Forall_map, sorted_Forall. unfold item_calls. apply Forall_map.
        apply Forall_forall. intros kv' Hin. cbn [fst snd].
        destruct (IH kv' Hin self1 (Henc _ Hin)) as (x & Hx).
        eexists. split; [| exact I].
        rewrite bind_read, (bind_run _ _ _ _ _ Hx). reflexivity. }
      rewrite (bind_run _ _ _ _ _ Hrun), bind_bump.
      subst self1. rewrite set_level_undo, bind_read. eexists. reflexivity.
Qed.

Lemma restores_line rt cls (v : value) :
  restores (pre <- read indent_str ;; x <- encode rt cls v ;; lift (str_add pre x)).
Proof.
  apply restores_bind; [apply restores_read |]. intro pre.
  apply restores_bind; [apply restores_encode |]. intro x. apply restores_lift.
Qed.

Lemma restores_calls rt cls (line : string * M encoded -> M string)
    (rank : string * M encoded -> string) items :
  (forall kc, restores (snd kc) -> restores (line kc)) ->
  Forall (fun kc => restores (line kc)) (sorted rank (item_calls (encode rt cls) items)).
Proof.
  intro Hline. apply sorted_Forall. unfold item_calls. apply Forall_map.
  apply Forall_forall. intros kv _. apply Hline. cbn [snd]. apply restores_encode.
Qed.

(** The calls on the values of a mapping that returned, whatever the order
    in which the items were sorted. *)
Lemma sorted_calls_returned rt cls (rank : string * M encoded -> string)
    (R : string * M encoded -> string -> Prop) items self lines :
  (forall kc line, R kc line -> exists x mid, snd kc self = (Return x, mid)) ->
  Forall2 R (sorted rank (item_calls (encode rt cls) items)) lines ->
  Forall (fun kv => exists x mid, encode rt cls (snd kv) self = (Return x, mid)) items.
Proof.
  intros HR H.
  apply Forall2_Forall_left
    with (P := fun kc : string * M encoded => exists x mid, snd kc self = (Return x, mid)) in H;
    [| exact HR].
  eapply Permutation_Forall in H; [| apply Permutation_sym, sorted_perm].
  unfold item_calls in H. rewrite Forall_map in H. exact H.
Qed.

Lemma returns_encodable rt cls v :
  forall self x self',
    encode rt cls v self = (Return x, self') ->
    encodable cls (allow_nan self) (indentation_level self) v = true.
Proof.
  induction v as [| b | n | f | s | d | l IH | items IH] using value_ind;
    intros self x self' Hrun; cbn [encodable]; try reflexivity; cbn [encode] in Hrun.
  - unfold super_encode in Hrun. rewrite bind_read in Hrun.
    destruct f as [sg | sg | | sg m e]; try reflexivity;
      destruct (allow_nan self); try reflexivity;
      try destruct sg; discriminate Hrun.
  - destruct d as [coef exp | neg |]; [reflexivity | discriminate Hrun | discriminate Hrun].
  - rewrite Forall_forall in IH.
    destruct (row_grouped cls (indentation_level self)) eqn:Hrow; apply forallb_forall.
    + destruct cls; try discriminate Hrow. cbn [row_grouped] in Hrow.
      cbn [encode_list] in Hrun. unfold keymap_encode_list in Hrun.
      rewrite bind_read, Hrow in Hrun.
      apply bind_returns in Hrun. destruct Hrun as (rows & mid & Hrows & _).
      apply layer_rows_returns_inv in Hrows;
        [| apply Forall_forall; intros; apply restores_encode].
      rewrite Forall_forall in Hrows.
      intros key Hin. destruct (is_dict key) eqn:Hd; [cbn [negb orb] | reflexivity].
      destruct (Hrows key Hin Hd) as (y & Hy). exact (IH key Hin _ _ _ Hy).
    + rewrite encode_list_plain in Hrun by exact Hrow. unfold element_level.
      destruct (primitives_only (VList l)).
      * unfold encode_list_inline in Hrun.
        apply bind_returns in Hrun. destruct Hrun as (parts & mid & Hparts & Hrun).
        apply sequenceM_returns_inv in Hparts;
          [| apply Forall_forall; intros; apply restores_encode].
        destruct Hparts as [-> Hparts].
        apply bind_returns in Hrun. destruct Hrun as (body & mid & Hbody & _).
        unfold lift, join_encoded in Hbody.
        destruct (all_str parts) as [ss |] eqn:Hall; [| discriminate Hbody].
        apply all_str_texts in Hall. subst parts.
        intros v Hv. destruct (Forall2_in_left _ _ _ _ Hparts Hv) as (y & Hy & Hrunv).
        apply in_map_iff in Hy. destruct Hy as (t & <- & _).
        apply andb_true_iff. split.
        -- destruct v; try reflexivity. exfalso. exact (decimal_not_text _ _ _ _ _ _ Hrunv).
        -- exact (IH v Hv _ _ _ Hrunv).
      * unfold encode_list_expanded in Hrun. rewrite bind_bump in Hrun.
        apply bind_returns in Hrun. destruct Hrun as (lines & mid & Hlines & _).
        apply sequenceM_returns_inv in Hlines;
          [| apply Forall_forall; intros; apply restores_line].
        destruct Hlines as [_ Hlines].
        intros v Hv. destruct (Forall2_in_left _ _ _ _ Hlines Hv) as (line & _ & Hline).
        rewrite bind_read in Hline.
        apply bind_returns in Hline. destruct Hline as (y & mid' & Hy & Hadd).
        destruct y as [t | |]; try discriminate Hadd.
        apply andb_true_iff. split.
        -- destruct v; try reflexivity. exfalso. exact (decimal_not_text _ _ _ _ _ _ Hy).
        -- exact (IH v Hv _ _ _ Hy).
  - rewrite Forall_forall in IH.
    destruct cls; cbn [encode_dict item_level] in *; [discriminate Hrun | |];
      apply forallb_forall; intros kv Hkv.
    + unfold info_encode_dict in Hrun. destruct items as [| kv0 items]; [destruct Hkv |].
      rewrite bind_read in Hrun. destruct (indentation_level self =? 4).
      * apply bind_returns in Hrun. destruct Hrun as (parts & mid & Hparts & _).
        apply sequenceM_returns_inv in Hparts.
        2: { apply restores_calls. intros kc Hkc.
             apply restores_bind; [apply restores_super_encode |]. intro k.
             apply restores_bind; [exact Hkc |]. intro y. apply restores_ret. }
        destruct Hparts as [_ Hparts].
        apply sorted_calls_returned with (self := self) in Hparts.
        -- rewrite Forall_forall in Hparts. destruct (Hparts kv Hkv) as (y & mid' & Hy).
           exact (IH kv Hkv _ _ _ Hy).
        -- intros kc line Hline.
           rewrite (bind_run _ _ _ _ _ (super_encode_str rt _ self)) in Hline.
           apply bind_returns in Hline. destruct Hline as (y & mid' & Hy & _).
           exists y, mid'. exact Hy.
      * rewrite bind_bump, bind_read in Hrun.
        apply bind_returns in Hrun. destruct Hrun as (lines & mid & Hlines & _).
        apply sequenceM_returns_inv in Hlines.
        2: { apply restores_calls. intros kc Hkc.
             apply restores_bind; [apply restores_read |]. intro pre.
             apply restores_bind; [exact Hkc |]. intro y. apply restores_ret. }
        destruct Hlines as [_ Hlines].
        apply sorted_calls_returned
          with (self := set_level self (indentation_level self + 1)) in Hlines.
        -- rewrite Forall_forall in Hlines. destruct (Hlines kv Hkv) as (y & mid' & Hy).
           exact (IH kv Hkv _ _ _ Hy).
        -- intros kc line Hline. rewrite bind_read in Hline.
           apply bind_returns in Hline. destruct Hline as (y & mid' & Hy & _).
           exists y, mid'. exact Hy.
    + unfold keymap_encode_dict in Hrun. destruct items as [| kv0 items]; [destruct Hkv |].
      rewrite bind_bump, bind_read in Hrun.
      apply bind_returns in Hrun. destruct Hrun as (lines & mid & Hlines & _).
      apply sequenceM_returns_inv in Hlines.
      2: { apply restores_calls. intros kc Hkc.
           apply restores_bind; [apply restores_read |]. intro pre.
           apply restores_bind; [exact Hkc |]. intro y. apply restores_ret. }
      destruct Hlines as [_ Hlines].
      apply sorted_calls_returned
        with (self := set_level self (indentation_level self + 1)) in Hlines.
      -- rewrite Forall_forall in Hlines. destruct (Hlines kv Hkv) as (y & mid' & Hy).
         exact (IH kv Hkv _ _ _ Hy).
      -- intros kc line Hline. rewrite bind_read in Hline.
         apply bind_returns in Hline. destruct Hline as (y & mid' & Hy & _).
         exists y, mid'. exact Hy.
Qed.

(** X3.  [encode] returns exactly on the encodable documents, and then
    leaves the encoder as it found it; on every other document it raises.
    So a document is rejected when a float is not finite and [allow_nan] is
    off, a Decimal is a NaN or an infinity, a Decimal sits directly in a
    sequence that is not row-grouped, a mapping in a row-grouped sequence is
    itself rejected, or the base printer meets a mapping. *)
Theorem encode_returns_on_encodable :
  forall rt cls v self,
    if encodable cls (allow_nan self) (indentation_level self) v
    then exists x, encode rt cls v self = (Return x, self)
    else exists e self', encode rt cls v self = (Raise e, self').
Proof.
  intros rt cls v self.
  destruct (encodable cls (allow_nan self) (indentation_level self) v) eqn:Henc.
  - apply encodable_returns. exact Henc.
  - destruct (encode rt cls v self) as [[x | e] self'] eqn:Hrun.
    + apply returns_encodable in Hrun. congruence.
    + exists e, self'. reflexivity.
Qed.

(** X4.  What [encode] returns is a text unless the document itself is a
    Decimal, for which it is the number [encode_decimal] computed: a caller
    that writes the result to a file gets an [int] or a [float] there. *)
Theorem encode_returns_text_unless_decimal :
  forall rt cls v self x self',
    encode rt cls v self = (Return x, self') ->
    ((exists s, x = EStr s) <-> is_decimal v = false).
Proof.
  intros rt cls v self x self' Hrun. split.
  - intros (s & ->). destruct v; try reflexivity.
    exfalso. exact (decimal_not_text _ _ _ _ _ _ Hrun).
  - intro Hv. exact (encode_text _ _ _ _ _ _ Hv Hrun).
Qed.

Lemma encode_returns_text_unless_decimal_witness :
  (forall rt,
     encode rt InfoJSONEncoder (VDecimal (DFinite 15 (-1))) (init None true true)
     = (Return (EFloat (float_of_decimal (DFinite 15 (-1)))), init None true true))
  /\ (forall rt : runtime,
        (exists s, EFloat (float_of_decimal (DFinite 15 (-1))) = EStr s)
        <-> is_decimal (VDecimal (DFinite 15 (-1))) = false).
Proof.
  assert (H : forall rt,
             encode rt InfoJSONEncoder (VDecimal (DFinite 15 (-1))) (init None true true)
             = (Return (EFloat (float_of_decimal (DFinite 15 (-1)))), init None true true))
    by (intro rt; reflexivity).
  split; [exact H |]. intro rt.
  exact (encode_returns_text_unless_decimal rt InfoJSONEncoder _ _ _ _ (H rt)).
Defined.

Lemma encodable_base_no_dict allow v :
  forall level, encodable QMKJSONEncoder allow level v = true -> has_dict v = false.
Proof.
  induction v as [| b | n | f | s | d | l IH | items IH] using value_ind;
    intros level Henc; try reflexivity; cbn [encodable row_grouped] in Henc.
  - cbn [has_dict]. destruct (existsb has_dict l) eqn:E; [| reflexivity].
    apply existsb_exists in E. destruct E as (x & Hin & Hx).
    rewrite forallb_forall in Henc. specialize (Henc x Hin).
    apply andb_true_iff in Henc. destruct Henc as [_ Henc].
    rewrite Forall_forall in IH. rewrite (IH x Hin _ Henc) in Hx. discriminate Hx.
  - discriminate Henc.
Qed.

(** X5.  The base printer has no method for a mapping: on a document that
    holds a mapping, at any depth, [QMKJSONEncoder.encode] raises. *)
Theorem base_printer_rejects_mappings :
  forall rt v self,
    has_dict v = true ->
    exists e self', encode rt QMKJSONEncoder v self = (Raise e, self').
Proof.
  intros rt v self Hv.
  destruct (encode rt QMKJSONEncoder v self) as [[x | e] self'] eqn:Hrun.
  - apply returns_encodable in Hrun. apply encodable_base_no_dict in Hrun. congruence.
  - exists e, self'. reflexivity.
Qed.

Lemma base_printer_rejects_mappings_witness :
  has_dict (VList [VInt 1; VList [VDict []]]) = true
  /\ forall rt,
       exists e self',
         encode rt QMKJSONEncoder (VList [VInt 1; VList [VDict []]]) (init None true true)
         = (Raise e, self').
Proof.
  assert (H : has_dict (VList [VInt 1; VList [VDict []]]) = true) by reflexivity.
  split; [exact H |]. intro rt.
  exact (base_printer_rejects_mappings rt _ (init None true true) H).
Defined.

(** X6.  A Decimal directly inside a sequence of scalars makes [encode]
    raise [TypeError], whole or not: the sequence is rendered inline, and
    the join refuses the number [encode_decimal] hands back.  The encoder is
    left as it was.  Only the row-grouped sequences of the Keymap-Document
    Printer take a Decimal. *)
Theorem decimal_in_sequence_raises :
  forall rt cls self l,
    forallb (fun v => text_scalar v || finite_decimal v) l = true ->
    existsb is_decimal l = true ->
    row_grouped cls (indentation_level self) = false ->
    encode rt cls (VList l) self = (Raise TypeError, self).
Proof.
  intros rt cls self l Hl Hdec Hrow.
  cbn [encode]. rewrite encode_list_plain by exact Hrow.
  assert (Hprim : primitives_only (VList l) = true).
  { unfold primitives_only. destruct (existsb is_container l) eqn:E; [| reflexivity].
    apply existsb_exists in E. destruct E as (v & Hin & Hv).
    rewrite forallb_forall in Hl. specialize (Hl v Hin).
    destruct v as [| | | | | [| |] | |]; discriminate. }
  rewrite Hprim. unfold encode_list_inline.
  set (g := fun v =>
              match v with
              | VDecimal (DFinite coef exp) =>
                  if decimal_eq_int coef exp (decimal_trunc coef exp)
                  then EInt (decimal_trunc coef exp)
                  else EFloat (float_of_decimal (DFinite coef exp))
              | _ => EStr (text_scalar_text (ensure_ascii self) v)
              end).
  rewrite bind_run with (a := map g l) (mid := self).
  - assert (Hall : all_str (map g l) = Raise TypeError).
    { clear Hprim. induction l as [| v l IH]; [discriminate Hdec |].
      cbn [forallb] in Hl. apply andb_true_iff in Hl. destruct Hl as [Hv Hl].
      cbn [map all_str].
      destruct v as [| b | n | f | s | [coef exp | neg |] | l' | items];
        try discriminate Hv; cbn [g text_scalar_text];
        try (cbn [existsb is_decimal orb] in Hdec; rewrite (IH Hl Hdec); reflexivity).
      destruct (decimal_eq_int coef exp (decimal_trunc coef exp)); reflexivity. }
    unfold join_encoded. rewrite Hall. reflexivity.
  - apply sequenceM_map_run. apply Forall_forall. intros v Hin.
    rewrite forallb_forall in Hl. specialize (Hl v Hin).
    destruct v as [| b | n | f | s | [coef exp | neg |] | l' | items];
      try discriminate Hl; try (apply text_scalar_run; reflexivity).
    cbn [encode encode_decimal g].
    destruct (decimal_eq_int coef exp (decimal_trunc coef exp)); reflexivity.
Qed.

Lemma decimal_in_sequence_raises_witness :
  forallb (fun v => text_scalar v || finite_decimal v) [VInt 1; VDecimal (DFinite 2 0)] = true
  /\ existsb is_decimal [VInt 1; VDecimal (DFinite 2 0)] = true
  /\ row_grouped InfoJSONEncoder (indentation_level (init None true true)) = false
  /\ forall rt,
       encode rt InfoJSONEncoder (VList [VInt 1; VDecimal (DFinite 2 0)]) (init None true true)
       = (Raise TypeError, init None true true).
Proof.
  assert (H1 : forallb (fun v => text_scalar v || finite_decimal v)
                 [VInt 1; VDecimal (DFinite 2 0)] = true) by reflexivity.
  assert (H2 : existsb is_decimal [VInt 1; VDecimal (DFinite 2 0)] = true) by reflexivity.
  assert (H3 : row_grouped InfoJSONEncoder (indentation_level (init None true true)) = false)
    by reflexivity.
  split; [exact H1 |]. split; [exact H2 |]. split; [exact H3 |]. intro rt.
  exact (decimal_in_sequence_raises rt InfoJSONEncoder (init None true true) _ H1 H2 H3).
Defined.

(** ** The order of the items of a mapping *)

Lemma NoDup_map_inj {A B} (f : A -> B) l a b :
  NoDup (map f l) -> In a l -> In b l -> f a = f b -> a = b.
Proof.
  induction l as [| x l IH]; cbn [map]; intros Hnd Ha Hb Hab; [destruct Ha |].
  inversion Hnd as [| ? ? Hx Hl]; subst.
  destruct Ha as [-> | Ha], Hb as [-> | Hb].
  - reflexivity.
  - exfalso. apply Hx. rewrite Hab. apply in_map, Hb.
  - exfalso. apply Hx. rewrite <- Hab. apply in_map, Ha.
  - apply IH; assumption.
Qed.

Lemma NoDup_map_injective {A B} (f : A -> B) l :
  (forall a b, f a = f b -> a = b) -> NoDup l -> NoDup (map f l).
Proof.
  intros Hf. induction 1 as [| x l Hx _ IH]; cbn [map]; constructor; [| exact IH].
  intro Hin. apply in_map_iff in Hin. destruct Hin as (y & Hy & Hin).
  apply Hf in Hy. subst y. exact (Hx Hin).
Qed.

Section SortedUnique.
Context {A : Type} (key : A -> string).

(** Two ordered lists with the same elements, whose keys are distinct, are
    one list. *)
Lemma ordered_perm_unique (l1 : list A) :
  forall l2,
    StronglySorted (fun a b => String.leb (key a) (key b) = true) l1 ->
    StronglySorted (fun a b => String.leb (key a) (key b) = true) l2 ->
    Permutation l1 l2 -> NoDup (map key l1) -> l1 = l2.
Proof.
  induction l1 as [| x xs IH]; intros l2 H1 H2 Hperm Hnd.
  - apply Permutation_nil in Hperm. subst l2. reflexivity.
  - destruct l2 as [| y ys];
      [apply Permutation_sym, Permutation_nil in Hperm; discriminate Hperm |].
    inversion H1 as [| ? ? Hxs Hx]; inversion H2 as [| ? ? Hys Hy]; subst.
    assert (Hxy : x = y).
    { assert (Hyin : In y (x :: xs))
        by (eapply Permutation_in; [apply Permutation_sym; exact Hperm | left; reflexivity]).
      assert (Hxin : In x (y :: ys))
        by (eapply Permutation_in; [exact Hperm | left; reflexivity]).
      destruct Hyin as [Heq | Hyin]; [exact Heq |].
      destruct Hxin as [Heq | Hxin]; [symmetry; exact Heq |].
      rewrite Forall_forall in Hx, Hy.
      eapply NoDup_map_inj;
        [exact Hnd | left; reflexivity | right; exact Hyin |].
      apply String.leb_antisym; [apply Hx, Hyin | apply Hy, Hxin]. }
    subst y. f_equal. apply IH.
    + exact Hxs.
    + exact Hys.
    + eapply Permutation_cons_inv. exact Hperm.
    + cbn [map] in Hnd. inversion Hnd. assumption.
Qed.

(** [sorted] does not depend on the order of its input when the keys are
    distinct. *)
Lemma sorted_perm_unique (l l' : list A) :
  Permutation l l' -> NoDup (map key l) -> sorted key l = sorted key l'.
Proof.
  intros Hperm Hnd. apply ordered_perm_unique.
  - apply sorted_ordered.
  - apply sorted_ordered.
  - eapply perm_trans; [apply Permutation_sym, sorted_perm |].
    eapply perm_trans; [exact Hperm | apply sorted_perm].
  - eapply Permutation_NoDup; [| exact Hnd].
    apply Permutation_map, sorted_perm.
Qed.
End SortedUnique.

Lemma sorted_calls_perm (enc : value -> M encoded) (rank : string -> string) items items' :
  Permutation items items' ->
  NoDup (map rank (map fst items)) ->
  sorted (fun kc : string * M encoded => rank (fst kc)) (item_calls enc items)
  = sorted (fun kc : string * M encoded => rank (fst kc)) (item_calls enc items').
Proof.
  intros Hperm Hnd. apply sorted_perm_unique.
  - unfold item_calls. apply Permutation_map. exact Hperm.
  - unfold item_calls. rewrite map_map. rewrite map_map in Hnd. exact Hnd.
Qed.

(** Distinct keys get distinct ranks, except at depth 2 of the
    Config-Document Printer, where [vid] and the key [10vid] share one. *)
Lemma info_sort_dict_injective level k k' :
  level <> 2 -> info_sort_dict level k = info_sort_dict level k' -> k = k'.
Proof.
  intro Hlevel. unfold info_sort_dict.
  destruct (level =? 1);
    [| destruct (Z.eqb_spec level 2); [contradiction | auto]].
  repeat match goal with
         | |- context [String.eqb ?a ?b] => destruct (String.eqb_spec a b) as [-> | ?]
         end;
    cbn; intro H; try reflexivity; try discriminate H; congruence.
Qed.

Lemma keymap_sort_dict_injective level k k' :
  keymap_sort_dict level k = keymap_sort_dict level k' -> k = k'.
Proof.
  unfold keymap_sort_dict. destruct (level =? 1); [| auto].
  repeat match goal with
         | |- context [String.eqb ?a ?b] => destruct (String.eqb_spec a b) as [-> | ?]
         end;
    cbn; intro H; try reflexivity; try discriminate H; congruence.
Qed.

(** X7.  The text of a mapping does not depend on the order in which its
    items were inserted: two mappings with the same items, under distinct
    keys, are encoded alike by every printer, the Config-Document Printer
    at depth 1 apart (there [sort_dict] ranks a key as itself, which may
    be the rank of [vid], [pid] or [device_ver]). *)
Theorem mapping_text_ignores_insertion_order :
  forall rt cls self items items',
    Permutation items items' ->
    NoDup (map fst items) ->
    (cls = InfoJSONEncoder -> indentation_level self <> 1) ->
    encode rt cls (VDict items) self = encode rt cls (VDict items') self.
Proof.
  intros rt cls self items items' Hperm Hnd Hlevel.
  cbn [encode]. destruct cls; cbn [encode_dict].
  - reflexivity.
  - specialize (Hlevel eq_refl). unfold info_encode_dict.
    destruct items as [| kv items], items' as [| kv' items'].
    + reflexivity.
    + apply Permutation_nil in Hperm. discriminate Hperm.
    + apply Permutation_sym, Permutation_nil in Hperm. discriminate Hperm.
    + rewrite !bind_read. destruct (indentation_level self =? 4).
      * replace (sorted fst (item_calls (encode rt InfoJSONEncoder) (kv :: items)))
          with (sorted fst (item_calls (encode rt InfoJSONEncoder) (kv' :: items')));
          [reflexivity |].
        symmetry.
        refine (sorted_calls_perm (encode rt InfoJSONEncoder) (fun k => k) _ _ Hperm _).
        rewrite map_id. exact Hnd.
      * rewrite !bind_bump, !bind_read.
        rewrite (sorted_calls_perm (encode rt InfoJSONEncoder)
                   (info_sort_dict
                      (indentation_level (set_level self (indentation_level self + 1))))
                   _ _ Hperm).
        -- reflexivity.
        -- apply NoDup_map_injective; [| exact Hnd].
           intros a b. apply info_sort_dict_injective. cbn [indentation_level set_level]. lia.
  - unfold keymap_encode_dict.
    destruct items as [| kv items], items' as [| kv' items'].
    + reflexivity.
    + apply Permutation_nil in Hperm. discriminate Hperm.
    + apply Permutation_sym, Permutation_nil in Hperm. discriminate Hperm.
    + rewrite !bind_bump, !bind_read.
      rewrite (sorted_calls_perm (encode rt KeymapJSONEncoder)
                 (keymap_sort_dict
                    (indentation_level (set_level self (indentation_level self + 1))))
                 _ _ Hperm).
      * reflexivity.
      * apply NoDup_map_injective; [| exact Hnd].
        intros a b. apply keymap_sort_dict_injective.
Qed.

Lemma mapping_text_ignores_insertion_order_witness :
  Permutation [("layers", VList []); ("version", VInt 1)]
              [("version", VInt 1); ("layers", VList [])]
  /\ NoDup (map fst [("layers", VList []); ("version", VInt 1)])
  /\ (KeymapJSONEncoder = InfoJSONEncoder -> indentation_level (init None true true) <> 1)
  /\ forall rt,
       encode rt KeymapJSONEncoder (VDict [("layers", VList []); ("version", VInt 1)])
         (init None true true)
       = encode rt KeymapJSONEncoder (VDict [("version", VInt 1); ("layers", VList [])])
           (init None true true).
Proof.
  assert (H1 : Permutation [("layers", VList []); ("version", VInt 1)]
                           [("version", VInt 1); ("layers", VList [])])
    by apply perm_swap.
  assert (H2 : NoDup (map fst [("layers", VList []); ("version", VInt 1)])).
  { cbn. constructor; [| constructor; [| constructor]]; cbn; intuition discriminate. }
  assert (H3 : KeymapJSONEncoder = InfoJSONEncoder
               -> indentation_level (init None true true) <> 1)
    by discriminate.
  split; [exact H1 |]. split; [exact H2 |]. split; [exact H3 |]. intro rt.
  exact (mapping_text_ignores_insertion_order rt KeymapJSONEncoder (init None true true)
           _ _ H1 H2 H3).
Defined.

(** ** [KLEJSONEncoder]: whole floats as integers *)

Lemma float_eq_int_trunc o n : float_eq_int o n = true -> float_trunc o = n.
Proof.
  destruct o as [sg | sg | | sg m e]; cbn [float_eq_int float_trunc]; try discriminate.
  - intro H. apply Z.eqb_eq in H. exact H.
  - destruct (Z.leb_spec 0 e) as [He | He]; intro H; apply Z.eqb_eq in H.
    + destruct sg; [change (Z.neg m) with (- Z.pos m) in H |]; lia.
    + assert (Hpow : 0 < 2 ^ (- e)) by (apply Z.pow_pos_nonneg; lia).
      destruct sg.
      * change (Z.neg m) with (- Z.pos m) in H.
        replace (Z.pos m) with (- n * 2 ^ (- e)) by lia.
        rewrite Z.div_mul by lia. lia.
      * rewrite H. apply Z.div_mul. lia.
Qed.

Lemma kle_floatstr_not_whole rt allow o :
  whole_float o = false -> kle_floatstr rt allow o = stock_floatstr rt allow o.
Proof.
  intro H. destruct o as [sg | sg | | sg m e]; try reflexivity;
    cbn [whole_float] in H; cbn [kle_floatstr stock_floatstr]; rewrite H; reflexivity.
Qed.

(** X8.  [floatstr] renders a float that equals an integer [n] as the
    digits of [n], whatever its size: the test [o == int(o)] and the
    conversion [int(o)] are exact. *)
Theorem kle_floatstr_whole_float :
  forall rt allow o n,
    float_eq_int o n = true ->
    kle_floatstr rt allow o = Return (int_repr n).
Proof.
  intros rt allow o n H. pose proof (float_eq_int_trunc _ _ H) as Htrunc.
  destruct o as [sg | sg | | sg m e]; try discriminate H;
    cbn [kle_floatstr]; rewrite Htrunc, H; reflexivity.
Qed.

Lemma kle_floatstr_whole_float_witness :
  float_eq_int float_two 2 = true
  /\ forall rt allow, kle_floatstr rt allow float_two = Return "2".
Proof.
  assert (H : float_eq_int float_two 2 = true) by reflexivity.
  split; [exact H |]. intros rt allow.
  exact (kle_floatstr_whole_float rt allow float_two 2 H).
Defined.

Lemma iterencode_floats_to_int rt allow ascii_only indent_opt item_sep o :
  forall level,
    iterencode_value (kle_floatstr rt allow) ascii_only indent_opt item_sep o level
    = iterencode_value (stock_floatstr rt allow) ascii_only indent_opt item_sep
        (floats_to_int o) level.
Proof.
  induction o as [| b | n | f | s | d | l IH | items IH] using value_ind;
    intro level; try reflexivity.
  - cbn [floats_to_int]. destruct (whole_float f) eqn:Hf.
    + destruct f as [sg | sg | | sg m e]; try discriminate Hf;
        cbn [whole_float] in Hf;
        cbn [iterencode_value encode_scalar kle_floatstr]; rewrite Hf; reflexivity.
    + cbn [iterencode_value encode_scalar].
      apply kle_floatstr_not_whole. exact Hf.
  - destruct l as [| v l]; [reflexivity |].
    cbn [floats_to_int map iterencode_value]. f_equal.
    rewrite Forall_forall in IH.
    cbn [map]. f_equal; [apply IH; left; reflexivity |].
    rewrite map_map. apply map_ext_in. intros x Hx. apply IH. right. exact Hx.
  - destruct items as [| kv items]; [reflexivity |].
    cbn [floats_to_int map iterencode_value]. f_equal.
    rewrite Forall_forall in IH.
    cbn [map fst snd]. f_equal; [rewrite IH by (left; reflexivity); reflexivity |].
    rewrite map_map. apply map_ext_in. intros x Hx. cbn [fst snd].
    rewrite IH by (right; exact Hx). reflexivity.
Qed.

(** X9.  Unless [iterencode] builds the encoder of the C accelerator,
    [KLEJSONEncoder] is the stock encoder run on the document in which
    every whole float is replaced by the integer it equals: same text, same
    exception.  [encode] inherits it. *)
Theorem kle_is_stock_on_integers :
  forall rt c_make_encoder self o one_shot,
    uses_c_encoder c_make_encoder self one_shot = false ->
    kle_iterencode rt c_make_encoder self o one_shot
    = stock_iterencode rt self (floats_to_int o)
    /\ (one_shot = true ->
        kle_encode rt c_make_encoder self o = stock_iterencode rt self (floats_to_int o)).
Proof.
  intros rt c self o one_shot H.
  assert (Hiter : kle_iterencode rt c self o one_shot
                  = stock_iterencode rt self (floats_to_int o)).
  { unfold kle_iterencode, stock_iterencode. unfold uses_c_encoder in H. rewrite H.
    apply iterencode_floats_to_int. }
  split; [exact Hiter |]. intros ->.
  destruct o; first [exact Hiter | reflexivity].
Qed.

Lemma kle_is_stock_on_integers_witness :
  uses_c_encoder false kle_default true = false
  /\ forall rt,
       kle_encode rt false kle_default
         (VDict [("w", VFloat float_two); ("x", VList [VFloat float_two; VInt 2])])
       = stock_iterencode rt kle_default
           (VDict [("w", VInt 2); ("x", VList [VInt 2; VInt 2])]).
Proof.
  assert (H : uses_c_encoder false kle_default true = false) by reflexivity.
  split; [exact H |]. intro rt.
  exact (proj2 (kle_is_stock_on_integers rt false kle_default
                  (VDict [("w", VFloat float_two); ("x", VList [VFloat float_two; VInt 2])])
                  true H) eq_refl).
Defined.

Lemma all_returned_map_returns {X A} (f : X -> outcome A) l :
  Forall (fun x => exists a, f x = Return a) l ->
  exists parts, all_returned (map f l) = Return parts.
Proof.
  induction 1 as [| x l (a & Ha) _ (parts & IH)]; cbn [map all_returned].
  - eexists. reflexivity.
  - rewrite Ha, IH. eexists. reflexivity.
Qed.

Lemma all_returned_map_raises {X A} (f : X -> outcome A) l :
  Exists (fun x => exists e, f x = Raise e) l ->
  exists e, all_returned (map f l) = Raise e.
Proof.
  induction 1 as [x l (e & He) | x l _ (e & IH)]; cbn [map all_returned].
  - rewrite He. eexists. reflexivity.
  - destruct (f x) as [a | e']; [| eexists; reflexivity].
    rewrite IH. eexists. reflexivity.
Qed.

Lemma iterencode_returns_on_encodable (floatstr : spec_float -> outcome string) allow
    ascii_only indent_opt item_sep o :
  (forall f, if match f with
                | S754_infinity _ | S754_nan => allow
                | _ => true
                end
             then exists s, floatstr f = Return s
             else exists e, floatstr f = Raise e) ->
  forall level,
    if kle_encodable allow o
    then exists s, iterencode_value floatstr ascii_only indent_opt item_sep o level = Return s
    else exists e, iterencode_value floatstr ascii_only indent_opt item_sep o level = Raise e.
Proof.
  intro Hfloat.
  induction o as [| b | n | f | s | d | l IH | items IH] using value_ind; intro level.
  - eexists. reflexivity.
  - destruct b; eexists; reflexivity.
  - eexists. reflexivity.
  - specialize (Hfloat f).
    destruct f as [sg | sg | | sg m e]; cbn [kle_encodable iterencode_value encode_scalar];
      exact Hfloat.
  - eexists. reflexivity.
  - eexists. reflexivity.
  - cbn [kle_encodable]. destruct l as [| v l]; [eexists; reflexivity |].
    cbn [iterencode_value]. unfold wrap.
    destruct (forallb (kle_encodable allow) (v :: l)) eqn:Hl.
    + destruct (all_returned_map_returns
                  (fun v => iterencode_value floatstr ascii_only indent_opt item_sep v
                              (inner_level indent_opt level)) (v :: l))
        as (parts & ->); [| eexists; reflexivity].
      rewrite forallb_forall in Hl. rewrite Forall_forall in IH |- *.
      intros x Hx. specialize (IH x Hx (inner_level indent_opt level)).
      rewrite (Hl x Hx) in IH. exact IH.
    + destruct (all_returned_map_raises
                  (fun v => iterencode_value floatstr ascii_only indent_opt item_sep v
                              (inner_level indent_opt level)) (v :: l))
        as (e & ->); [| eexists; reflexivity].
      apply Exists_exists.
      destruct (forallb_forall (kle_encodable allow) (v :: l)) as [_ Hall].
      destruct (Exists_dec (fun x => kle_encodable allow x = false) (v :: l)) as [Hex | Hno].
      { intro x. destruct (kle_encodable allow x); [right; discriminate | left; reflexivity]. }
      * apply Exists_exists in Hex. destruct Hex as (x & Hx & Hfalse).
        exists x. split; [exact Hx |].
        rewrite Forall_forall in IH. specialize (IH x Hx (inner_level indent_opt level)).
        rewrite Hfalse in IH. exact IH.
      * exfalso. rewrite Hall in Hl; [discriminate Hl |].
        intros x Hx. destruct (kle_encodable allow x) eqn:Ex; [reflexivity |].
        exfalso. apply Hno. apply Exists_exists. exists x. split; assumption.
  - cbn [kle_encodable]. destruct items as [| kv items]; [eexists; reflexivity |].
    cbn [iterencode_value]. unfold wrap.
    set (chunk := fun kv : string * value =>
                    match iterencode_value floatstr ascii_only indent_opt item_sep (snd kv)
                            (inner_level indent_opt level) with
                    | Return t => Return (string_encoder ascii_only (fst kv) ++ key_separator ++ t)
                    | Raise e => Raise e
                    end).
    destruct (forallb (fun kv => kle_encodable allow (snd kv)) (kv :: items)) eqn:Hl.
    + destruct (all_returned_map_returns chunk (kv :: items)) as (parts & ->);
        [| eexists; reflexivity].
      rewrite forallb_forall in Hl. rewrite Forall_forall in IH |- *.
      intros x Hx. specialize (IH x Hx (inner_level indent_opt level)).
      rewrite (Hl x Hx) in IH. destruct IH as (t & Ht).
      unfold chunk. rewrite Ht. eexists. reflexivity.
    + destruct (all_returned_map_raises chunk (kv :: items)) as (e & ->);
        [| eexists; reflexivity].
      apply Exists_exists.
      destruct (forallb_forall (fun kv => kle_encodable allow (snd kv)) (kv :: items))
        as [_ Hall].
      destruct (Exists_dec (fun x : string * value => kle_encodable allow (snd x) = false)
                  (kv :: items)) as [Hex | Hno].
      { intro x. destruct (kle_encodable allow (snd x)); [right; discriminate | left; reflexivity]. }
      * apply Exists_exists in Hex. destruct Hex as (x & Hx & Hfalse).
        exists x. split; [exact Hx |].
        rewrite Forall_forall in IH. specialize (IH x Hx (inner_level indent_opt level)).
        rewrite Hfalse in IH. destruct IH as (e & He).
        unfold chunk. rewrite He. eexists. reflexivity.
      * exfalso. rewrite Hall in Hl; [discriminate Hl |].
        intros x Hx. destruct (kle_encodable allow (snd x)) eqn:Ex; [reflexivity |].
        exfalso. apply Hno. apply Exists_exists. exists x. split; assumption.
Qed.

(** X10.  [KLEJSONEncoder] returns a text exactly on the documents without
    a Decimal whose floats are finite, or any when [allow_nan] is set; on
    every other document it raises, with or without the C accelerator, in
    one shot or not. *)
Theorem kle_returns_on_encodable :
  forall rt c_make_encoder self o one_shot,
    if kle_encodable (kle_allow_nan self) o
    then (exists s, kle_iterencode rt c_make_encoder self o one_shot = Return s)
         /\ (exists s, kle_encode rt c_make_encoder self o = Return s)
    else (exists e, kle_iterencode rt c_make_encoder self o one_shot = Raise e)
         /\ (exists e, kle_encode rt c_make_encoder self o = Raise e).
Proof.
  intros rt c self o one_shot.
  assert (Hiter : forall one_shot',
             if kle_encodable (kle_allow_nan self) o
             then exists s, kle_iterencode rt c self o one_shot' = Return s
             else exists e, kle_iterencode rt c self o one_shot' = Raise e).
  { intro one_shot'. unfold kle_iterencode.
    apply iterencode_returns_on_encodable. intro f.
    destruct (one_shot' && c && match kle_indent self with
                                | Some _ => false
                                | None => true
                                end);
      destruct f as [sg | [|] | | sg m e];
      cbn [stock_floatstr kle_floatstr];
      try destruct (kle_allow_nan self);
      try destruct (float_eq_int _ _);
      eexists; reflexivity. }
  pose proof (Hiter one_shot) as H1. pose proof (Hiter true) as H2.
  destruct (kle_encodable (kle_allow_nan self) o) eqn:Ho.
  - split; [exact H1 |]. destruct o; first [exact H2 | eexists; reflexivity].
  - split; [exact H1 |]. destruct o; first [exact H2 | discriminate Ho].
Qed.

(** ** The encoder after an exception *)

Lemma deeper_refl self : deeper 0 self self.
Proof. unfold deeper. repeat split. lia. Qed.

Lemma deeper_weaken d d' self self' : d' <= d -> deeper d self self' -> deeper d' self self'.
Proof. unfold deeper. intros Hd (H1 & H2 & H3 & H4). repeat split; try assumption. lia. Qed.

Lemma deeper_bump d self self' :
  deeper 0 (set_level self (indentation_level self + d)) self' -> deeper d self self'.
Proof.
  unfold deeper. cbn [set_level indent ensure_ascii allow_nan indentation_level].
  intros (H1 & H2 & H3 & H4). repeat split; try assumption. lia.
Qed.

Lemma bind_raises {A B} (m : M A) (k : A -> M B) self e self' :
  bind m k self = (Raise e, self') ->
  m self = (Raise e, self')
  \/ exists a mid, m self = (Return a, mid) /\ k a mid = (Raise e, self').
Proof.
  unfold bind. destruct (m self) as [[a | e0] mid]; intro H.
  - right. exists a, mid. split; [reflexivity | exact H].
  - left. inversion H. reflexivity.
Qed.

Lemma frames_still {A} (m : M A) : (forall self, snd (m self) = self) -> frames m.
Proof.
  intros H self e self' Hrun. pose proof (H self) as Hs. rewrite Hrun in Hs.
  cbn [snd] in Hs. subst self'. apply deeper_refl.
Qed.

Lemma frames_bind {A B} (m : M A) (k : A -> M B) :
  restores m -> frames m -> (forall a, frames (k a)) -> frames (bind m k).
Proof.
  intros Hr Hm Hk self e self' H. apply bind_raises in H.
  destruct H as [H | (a & mid & H1 & H2)].
  - exact (Hm _ _ _ H).
  - apply Hr in H1. subst mid. exact (Hk _ _ _ _ H2).
Qed.

Lemma frames_sequenceM {A} (acts : list (M A)) :
  Forall (fun act => restores act /\ frames act) acts -> frames (sequenceM acts).
Proof.
  induction 1 as [| act rest [Hr Hf] Hrest IH]; cbn [sequenceM].
  - apply frames_still. reflexivity.
  - apply frames_bind; [exact Hr | exact Hf |]. intro a.
    apply frames_bind.
    + apply restores_sequenceM. eapply Forall_impl; [| exact Hrest].
      intros act' [Hr' _]. exact Hr'.
    + exact IH.
    + intro others. apply frames_still. reflexivity.
Qed.

Lemma frames_super_encode rt v : frames (super_encode rt v).
Proof.
  apply frames_still. intro self. unfold super_encode, bind, read, lift, ret.
  destruct (encode_scalar _ _ v); reflexivity.
Qed.

Lemma frames_encode_decimal d : frames (encode_decimal d).
Proof.
  apply frames_still. intro self. destruct d as [coef exp | neg |]; cbn [encode_decimal];
    try reflexivity.
  destruct (decimal_eq_int coef exp (decimal_trunc coef exp)); reflexivity.
Qed.

Section Frames.
Variable rt : runtime.
Variable enc : value -> M encoded.

Lemma frames_encode_list_inline l :
  Forall (fun v => restores (enc v) /\ frames (enc v)) l ->
  frames (encode_list_inline enc l).
Proof.
  intro Hl. unfold encode_list_inline. apply frames_bind.
  - apply restores_sequenceM, Forall_map. eapply Forall_impl; [| exact Hl].
    intros v [Hr _]. exact Hr.
  - apply frames_sequenceM, Forall_map. exact Hl.
  - intro parts. apply frames_still. intro self. unfold bind, lift, ret.
    destruct (join_encoded ", " parts); reflexivity.
Qed.

(** An exception that leaves the expanded branch was raised by an element,
    one level deeper: nothing lowers the counter on the way out. *)
Lemma expanded_list_raises l self e self' :
  Forall (fun v => restores (enc v) /\ frames (enc v)) l ->
  encode_list_expanded enc l self = (Raise e, self') -> deeper 1 self self'.
Proof.
  intros Hl H. unfold encode_list_expanded in H. rewrite bind_bump in H.
  apply bind_raises in H. destruct H as [H | (out & mid & _ & H)].
  - apply deeper_bump. eapply frames_sequenceM; [| exact H].
    apply Forall_map. eapply Forall_impl; [| exact Hl]. intros v [Hr Hf]. split.
    + apply restores_bind; [apply restores_read |]. intro pre.
      apply restores_bind; [exact Hr |]. intro x. apply restores_lift.
    + apply frames_bind; [apply restores_read | apply frames_still; reflexivity |].
      intro pre. apply frames_bind; [exact Hr | exact Hf |].
      intro x. apply frames_still. reflexivity.
  - rewrite bind_bump, bind_read in H. discriminate H.
Qed.

Lemma calls_frame (line : string * M encoded -> M string)
    (rank : string * M encoded -> string) items :
  Forall (fun kv => restores (enc (snd kv)) /\ frames (enc (snd kv))) items ->
  (forall kc, restores (snd kc) -> frames (snd kc) -> restores (line kc) /\ frames (line kc)) ->
  Forall (fun act => restores act /\ frames act)
    (map line (sorted rank (item_calls enc items))).
Proof.
  intros Hitems Hline. apply Forall_map, sorted_Forall. unfold item_calls.
  apply Forall_map. eapply Forall_impl; [| exact Hitems].
  intros kv [Hr Hf]. apply Hline; assumption.
Qed.

Lemma expanded_line_frames (kc : string * M encoded) :
  restores (snd kc) -> frames (snd kc) ->
  restores (pre <- read indent_str ;;
            x <- snd kc ;;
            ret (pre ++ json_dumps_str (fst kc) ++ ": " ++ format_encoded rt x))
  /\ frames (pre <- read indent_str ;;
             x <- snd kc ;;
             ret (pre ++ json_dumps_str (fst kc) ++ ": " ++ format_encoded rt x)).
Proof.
  intros Hr Hf. split.
  - apply restores_bind; [apply restores_read |]. intro pre.
    apply restores_bind; [exact Hr |]. intro x. apply restores_ret.
  - apply frames_bind; [apply restores_read | apply frames_still; reflexivity |].
    intro pre. apply frames_bind; [exact Hr | exact Hf |].
    intro x. apply frames_still. reflexivity.
Qed.

Lemma info_dict_expanded_raises items self e self' :
  Forall (fun kv => restores (enc (snd kv)) /\ frames (enc (snd kv))) items ->
  (indentation_level self =? 4) = false ->
  info_encode_dict rt enc items self = (Raise e, self') -> deeper 1 self self'.
Proof.
  intros Hitems Hlevel H. unfold info_encode_dict in H.
  destruct items as [| kv items]; [discriminate H |].
  rewrite bind_read, Hlevel, bind_bump, bind_read in H.
  apply bind_raises in H. destruct H as [H | (out & mid & _ & H)].
  - apply deeper_bump. eapply frames_sequenceM; [| exact H].
    apply calls_frame; [exact Hitems | apply expanded_line_frames].
  - rewrite bind_bump, bind_read in H. discriminate H.
Qed.

Lemma info_dict_inline_frames items self e self' :
  Forall (fun kv => restores (enc (snd kv)) /\ frames (enc (snd kv))) items ->
  (indentation_level self =? 4) = true ->
  info_encode_dict rt enc items self = (Raise e, self') -> deeper 0 self self'.
Proof.
  intros Hitems Hlevel H. unfold info_encode_dict in H.
  destruct items as [| kv items]; [discriminate H |].
  rewrite bind_read, Hlevel in H.
  apply bind_raises in H. destruct H as [H | (out & mid & _ & H)]; [| discriminate H].
  eapply frames_sequenceM; [| exact H].
  apply calls_frame; [exact Hitems |]. intros kc Hr Hf. split.
  - apply restores_bind; [apply restores_super_encode |]. intro k.
    apply restores_bind; [exact Hr |]. intro x. apply restores_ret.
  - apply frames_bind; [apply restores_super_encode | apply frames_super_encode |].
    intro k. apply frames_bind; [exact Hr | exact Hf |].
    intro x. apply frames_still. reflexivity.
Qed.

Lemma keymap_dict_raises items self e self' :
  Forall (fun kv => restores (enc (snd kv)) /\ frames (enc (snd kv))) items ->
  keymap_encode_dict rt enc items self = (Raise e, self') -> deeper 1 self self'.
Proof.
  intros Hitems H. unfold keymap_encode_dict in H.
  destruct items as [| kv items]; [discriminate H |].
  rewrite bind_bump, bind_read in H.
  apply bind_raises in H. destruct H as [H | (out & mid & _ & H)].
  - apply deeper_bump. eapply frames_sequenceM; [| exact H].
    apply calls_frame; [exact Hitems | apply expanded_line_frames].
  - rewrite bind_bump, bind_read in H. discriminate H.
Qed.

Lemma frames_layer_rows l :
  Forall (fun v => restores (enc v) /\ frames (enc v)) l ->
  forall layer, frames (layer_rows rt enc l layer).
Proof.
  induction 1 as [| key rest [Hr Hf] _ IH]; intro layer; cbn [layer_rows].
  - apply frames_still. reflexivity.
  - destruct (is_sentinel key); [apply IH |].
    destruct key; try apply IH.
    apply frames_bind; [exact Hr | exact Hf |]. intro x. apply IH.
Qed.

Lemma frames_encode_list cls l :
  Forall (fun v => restores (enc v) /\ frames (enc v)) l ->
  frames (encode_list rt enc cls l).
Proof.
  intros Hl self e self' H.
  destruct (row_grouped cls (indentation_level self)) eqn:Hrow.
  - destruct cls; try discriminate Hrow. cbn [row_grouped] in Hrow.
    cbn [encode_list] in H. unfold keymap_encode_list in H.
    rewrite bind_read, Hrow in H.
    apply bind_raises in H. destruct H as [H | (rows & mid & _ & H)]; [| discriminate H].
    exact (frames_layer_rows l Hl _ _ _ _ H).
  - rewrite encode_list_plain in H by exact Hrow.
    destruct (primitives_only (VList l)).
    + exact (frames_encode_list_inline l Hl _ _ _ H).
    + apply deeper_weaken with (d := 1); [lia |].
      exact (expanded_list_raises l _ _ _ Hl H).
Qed.

Lemma frames_encode_dict cls items :
  Forall (fun kv => restores (enc (snd kv)) /\ frames (enc (snd kv))) items ->
  frames (encode_dict rt enc cls items).
Proof.
  intros Hitems self e self' H. destruct cls; cbn [encode_dict] in H.
  - inversion H. apply deeper_refl.
  - destruct (indentation_level self =? 4) eqn:Hlevel.
    + exact (info_dict_inline_frames items _ _ _ Hitems Hlevel H).
    + apply deeper_weaken with (d := 1); [lia |].
      exact (info_dict_expanded_raises items _ _ _ Hitems Hlevel H).
  - apply deeper_weaken with (d := 1); [lia |].
    exact (keymap_dict_raises items _ _ _ Hitems H).
Qed.
End Frames.

Lemma frames_encode rt cls v : restores (encode rt cls v) /\ frames (encode rt cls v).
Proof.
  split; [apply restores_encode |].
  induction v as [| b | n | f | s | d | l IH | items IH] using value_ind; cbn [encode];
    try apply frames_super_encode.
  - apply frames_encode_decimal.
  - apply frames_encode_list. eapply Forall_impl; [| exact IH].
    intros v Hv. split; [apply restores_encode | exact Hv].
  - apply frames_encode_dict. eapply Forall_impl; [| exact IH].
    intros kv Hkv. split; [apply restores_encode | exact Hkv].
Qed.

(** X11.  Whether it returns or raises, [encode] never changes the options
    [indent], [ensure_ascii] and [allow_nan] of the encoder, and never
    leaves the depth counter below the depth it was called at. *)
Theorem encode_keeps_options :
  forall rt cls v self,
    deeper 0 self (snd (encode rt cls v self)).
Proof.
  intros rt cls v self.
  destruct (encode rt cls v self) as [[x | e] self'] eqn:Hrun; cbn [snd].
  - apply restores_encode in Hrun. subst self'. apply deeper_refl.
  - exact (proj2 (frames_encode rt cls v) _ _ _ Hrun).
Qed.

(** X12.  No method restores the depth counter on the way out of an
    exception: when [encode] raises on a container it renders expanded, the
    encoder is left at least one level deeper than it was, so the same
    object indents a later document from there. *)
Theorem raise_leaves_encoder_deeper :
  forall rt cls v self e self',
    expands cls (indentation_level self) v = true ->
    encode rt cls v self = (Raise e, self') ->
    deeper 1 self self'.
Proof.
  intros rt cls v self e self' Hv H.
  destruct v as [| b | n | f | s | d | l | items]; try discriminate Hv;
    cbn [expands encode] in *.
  - apply andb_true_iff in Hv. destruct Hv as [Hrow Hprim].
    apply negb_true_iff in Hrow. apply negb_true_iff in Hprim.
    rewrite encode_list_plain, Hprim in H by exact Hrow.
    eapply expanded_list_raises; [| exact H].
    apply Forall_forall. intros v _. apply frames_encode.
  - destruct items as [| kv items]; [discriminate Hv |].
    assert (Hitems : Forall (fun kv0 : string * value =>
                               restores (encode rt cls (snd kv0))
                               /\ frames (encode rt cls (snd kv0))) (kv :: items))
      by (apply Forall_forall; intros kv0 _; apply frames_encode).
    destruct cls; [discriminate Hv | |]; cbn [encode_dict] in H.
    + apply negb_true_iff in Hv.
      exact (info_dict_expanded_raises rt _ _ _ _ _ Hitems Hv H).
    + exact (keymap_dict_raises rt _ _ _ _ _ Hitems H).
Qed.

Lemma raise_leaves_encoder_deeper_witness :
  expands InfoJSONEncoder (indentation_level (init None true true))
    (VDict [("matrix", VList [VDecimal (DFinite 1 0)])]) = true
  /\ forall rt,
       encode rt InfoJSONEncoder (VDict [("matrix", VList [VDecimal (DFinite 1 0)])])
         (init None true true)
       = (Raise TypeError, set_level (init None true true) 1)
       /\ deeper 1 (init None true true) (set_level (init None true true) 1).
Proof.
  assert (H : expands InfoJSONEncoder (indentation_level (init None true true))
                (VDict [("matrix", VList [VDecimal (DFinite 1 0)])]) = true)
    by reflexivity.
  split; [exact H |]. intro rt.
  assert (Hrun : encode rt InfoJSONEncoder
                   (VDict [("matrix", VList [VDecimal (DFinite 1 0)])])
                   (init None true true)
                 = (Raise TypeError, set_level (init None true true) 1))
    by reflexivity.
  split; [exact Hrun |].
  exact (raise_leaves_encoder_deeper rt InfoJSONEncoder _ _ _ _ H Hrun).
Defined.

(** ** The text of a mapping, from the texts of its values *)

Lemma sorted_item_calls (enc : value -> M encoded) (rank : string -> string) items :
  sorted (fun kc : string * M encoded => rank (fst kc)) (item_calls enc items)
  = item_calls enc (sorted (fun kv : string * value => rank (fst kv)) items).
Proof. unfold item_calls. apply sorted_map. intro kv. reflexivity. Qed.

(** X13.  An expanded mapping is laid out from its values alone: when the
    value of each item encodes, one level deeper, to what [child] tells,
    the mapping encodes to one line per item between the two brace lines,
    each line made of the deeper indent, the key as [json.dumps] quotes it
    (ASCII-escaped, whatever [ensure_ascii]), a colon and the value, the
    lines in nondecreasing order of the ranks [sort_dict] gives the keys.
    This is every non-empty mapping of the Keymap-Document Printer, and of
    the Config-Document Printer away from depth 4. *)
Theorem expanded_mapping_from_values :
  forall rt cls self items (child : string * value -> encoded),
    items <> [] ->
    cls <> QMKJSONEncoder ->
    (cls = InfoJSONEncoder -> indentation_level self <> 4) ->
    Forall (fun kv => encode rt cls (snd kv) (inside self) = (Return (child kv), inside self))
           items ->
    encode rt cls (VDict items) self
    = (Return (EStr (expanded_mapping_text self (fun kv => format_encoded rt (child kv))
                       (sorted (fun kv => item_rank cls (indentation_level self) (fst kv))
                               items))),
       self)
    /\ StronglySorted
         (fun a b => String.leb (item_rank cls (indentation_level self) (fst a))
                                (item_rank cls (indentation_level self) (fst b)) = true)
         (sorted (fun kv => item_rank cls (indentation_level self) (fst kv)) items)
    /\ Permutation items
         (sorted (fun kv => item_rank cls (indentation_level self) (fst kv)) items).
Proof.
  intros rt cls self items child Hne Hcls Hlevel Hitems.
  split; [| split; [apply (sorted_ordered (fun kv : string * value =>
                                            item_rank cls (indentation_level self) (fst kv)))
                   | apply sorted_perm]].
  assert (Hlines : forall rank : string -> string,
             sequenceM
               (map (fun kc : string * M encoded =>
                       pre <- read indent_str ;;
                       x <- snd kc ;;
                       ret (pre ++ json_dumps_str (fst kc) ++ ": " ++ format_encoded rt x))
                    (sorted (fun kc : string * M encoded => rank (fst kc))
                            (item_calls (encode rt cls) items)))
               (inside self)
             = (Return (map (fun kv => indent_str (inside self) ++ json_dumps_str (fst kv)
                                         ++ ": " ++ format_encoded rt (child kv))
                            (sorted (fun kv : string * value => rank (fst kv)) items)),
                inside self)).
  { intro rank. rewrite sorted_item_calls. unfold item_calls. rewrite map_map.
    apply sequenceM_map_run. apply sorted_Forall.
    eapply Forall_impl; [| exact Hitems]. cbn beta. intros kv Hkv. cbn [fst snd].
    rewrite bind_read, (bind_run _ _ _ _ _ Hkv). reflexivity. }
  cbn [encode]. destruct cls; [contradiction | |]; cbn [encode_dict item_rank].
  - specialize (Hlevel eq_refl). apply Z.eqb_neq in Hlevel.
    unfold info_encode_dict. destruct items as [| kv items]; [contradiction |].
    rewrite bind_read, Hlevel, bind_bump, bind_read.
    fold (inside self).
    rewrite (bind_run _ _ _ _ _
               (Hlines (info_sort_dict (indentation_level (inside self))))).
    rewrite bind_bump. unfold inside. rewrite set_level_undo, bind_read.
    reflexivity.
  - unfold keymap_encode_dict. destruct items as [| kv items]; [contradiction |].
    rewrite bind_bump, bind_read.
    fold (inside self).
    rewrite (bind_run _ _ _ _ _
               (Hlines (keymap_sort_dict (indentation_level (inside self))))).
    rewrite bind_bump. unfold inside. rewrite set_level_undo, bind_read.
    reflexivity.
Qed.

Lemma expanded_mapping_from_values_witness :
  [("layers", VList []); ("version", VInt 1)] <> []
  /\ KeymapJSONEncoder <> QMKJSONEncoder
  /\ forall rt,
       encode rt KeymapJSONEncoder (VDict [("layers", VList []); ("version", VInt 1)])
         (init None true true)
       = (Return (EStr (expanded_mapping_text (init None true true)
                          (fun kv => match snd kv with
                                     | VInt _ => "1"
                                     | _ => "[]"
                                     end)
                          [("version", VInt 1); ("layers", VList [])])),
          init None true true).
Proof.
  assert (H1 : [("layers", VList []); ("version", VInt 1)] <> []) by discriminate.
  assert (H2 : KeymapJSONEncoder <> QMKJSONEncoder) by discriminate.
  assert (H3 : KeymapJSONEncoder = InfoJSONEncoder
               -> indentation_level (init None true true) <> 4) by discriminate.
  split; [exact H1 |]. split; [exact H2 |]. intro rt.
  assert (H4 : Forall (fun kv : string * value =>
                         encode rt KeymapJSONEncoder (snd kv) (inside (init None true true))
                         = (Return (match snd kv with
                                    | VInt _ => EStr "1"
                                    | _ => EStr "[]"
                                    end),
                            inside (init None true true)))
                 [("layers", VList []); ("version", VInt 1)])
    by (repeat constructor).
  exact (proj1 (expanded_mapping_from_values rt KeymapJSONEncoder (init None true true)
                  _ _ H1 H2 H3 H4)).
Defined.

(** X14.  The one-line mapping of the Config-Document Printer, at depth 4:
    when the value of each item encodes, at the same depth, to what
    [child] tells, the mapping encodes to its items between braces on one
    line, in the order of the keys themselves, each key quoted as the
    encoder quotes a string (so following [ensure_ascii]). *)
Theorem inline_mapping_from_values :
  forall rt self items (child : string * value -> encoded),
    items <> [] ->
    indentation_level self = 4 ->
    Forall (fun kv => encode rt InfoJSONEncoder (snd kv) self = (Return (child kv), self))
           items ->
    encode rt InfoJSONEncoder (VDict items) self
    = (Return (EStr (inline_mapping_text self (fun kv => format_encoded rt (child kv))
                       (sorted fst items))),
       self)
    /\ StronglySorted (fun a b => String.leb (fst a) (fst b) = true) (sorted fst items).
Proof.
  intros rt self items child Hne Hlevel Hitems.
  split; [| apply (sorted_ordered (@fst string value))].
  cbn [encode encode_dict]. unfold info_encode_dict.
  destruct items as [| kv items]; [contradiction |].
  rewrite bind_read, Hlevel. cbn [Z.eqb Pos.eqb].
  replace (sorted fst (item_calls (encode rt InfoJSONEncoder) (kv :: items)))
    with (item_calls (encode rt InfoJSONEncoder) (sorted fst (kv :: items)))
    by (symmetry; unfold item_calls; apply sorted_map; intro a; reflexivity).
  unfold item_calls. rewrite map_map.
  rewrite bind_run
    with (a := map (fun kv0 => string_encoder (ensure_ascii self) (fst kv0) ++ ": "
                                 ++ format_encoded rt (child kv0))
                   (sorted fst (kv :: items)))
         (mid := self).
  - reflexivity.
  - apply sequenceM_map_run. apply sorted_Forall.
    eapply Forall_impl; [| exact Hitems]. cbn beta. intros kv0 Hkv. cbn [fst snd].
    rewrite (bind_run _ _ _ _ _ (super_encode_str rt _ self)).
    rewrite (bind_run _ _ _ _ _ Hkv). reflexivity.
Qed.

Lemma inline_mapping_from_values_witness :
  [("y", VInt 1); ("x", VInt 1)] <> []
  /\ indentation_level (set_level (init None true true) 4) = 4
  /\ forall rt,
       encode rt InfoJSONEncoder (VDict [("y", VInt 1); ("x", VInt 1)])
         (set_level (init None true true) 4)
       = (Return (EStr (inline_mapping_text (set_level (init None true true) 4)
                          (fun _ => "1") [("x", VInt 1); ("y", VInt 1)])),
          set_level (init None true true) 4).
Proof.
  assert (H1 : [("y", VInt 1); ("x", VInt 1)] <> []) by discriminate.
  assert (H2 : indentation_level (set_level (init None true true) 4) = 4) by reflexivity.
  split; [exact H1 |]. split; [exact H2 |]. intro rt.
  assert (H3 : Forall (fun kv : string * value =>
                         encode rt InfoJSONEncoder (snd kv) (set_level (init None true true) 4)
                         = (Return (EStr "1"), set_level (init None true true) 4))
                 [("y", VInt 1); ("x", VInt 1)])
    by (repeat constructor).
  exact (proj1 (inline_mapping_from_values rt (set_level (init None true true) 4)
                  _ (fun _ => EStr "1") H1 H2 H3)).
Defined.

(** ** The layers of a keymap document *)

(** X15.  The value of a key of the root mapping of a keymap document is
    met at depth 1.  When it is a sequence of layers, each a sequence
    without a mapping, the Keymap-Document Printer renders it expanded and
    meets every layer at depth 2, where it groups it into rows: each layer
    is given the text of its rows, its opening bracket preceded by twice
    the depth-2 indent, and the layers are separated by a comma and a line
    break. *)
Theorem keymap_layers_row_grouped :
  forall rt self (layers : list (list value)),
    indentation_level self = 1 ->
    layers <> [] ->
    Forall (Forall (fun key => is_dict key = false)) layers ->
    encode rt KeymapJSONEncoder (VList (map VList layers)) self
    = (Return (EStr ("[" ++ newline
                 ++ join ("," ++ newline)
                      (map (fun keys =>
                              indent_str (inside self) ++ indent_str (inside self)
                              ++ layer_text rt (str_mul (indent_str (inside self)) 3)
                                   (str_mul (indent_str (inside self)) 2) keys)
                           layers)
                 ++ newline ++ indent_str self ++ "]")),
       self).
Proof.
  intros rt self layers Hlevel Hne Hlayers.
  cbn [encode]. rewrite encode_list_plain by (cbn [row_grouped]; rewrite Hlevel; reflexivity).
  assert (Hprim : primitives_only (VList (map VList layers)) = false).
  { destruct layers as [| keys layers]; [contradiction | reflexivity]. }
  rewrite Hprim. unfold encode_list_expanded. rewrite bind_bump. fold (inside self).
  rewrite map_map.
  rewrite bind_run
    with (a := map (fun keys =>
                      indent_str (inside self) ++ indent_str (inside self)
                      ++ layer_text rt (str_mul (indent_str (inside self)) 3)
                           (str_mul (indent_str (inside self)) 2) keys) layers)
         (mid := inside self).
  - rewrite bind_bump. unfold inside. rewrite set_level_undo, bind_read. reflexivity.
  - apply sequenceM_map_run. eapply Forall_impl; [| exact Hlayers].
    cbn beta. intros keys Hkeys. rewrite bind_read.
    rewrite bind_run
      with (a := EStr (indent_str (inside self)
                       ++ layer_text rt (str_mul (indent_str (inside self)) 3)
                            (str_mul (indent_str (inside self)) 2) keys))
           (mid := inside self).
    + reflexivity.
    + apply keymap_layer_text; [| exact Hkeys].
      unfold inside. cbn [indentation_level set_level]. lia.
Qed.

Lemma keymap_layers_row_grouped_witness :
  indentation_level (set_level (init None true true) 1) = 1
  /\ [[VStr "KC_A"; VStr "JSON_NEWLINE"; VStr "KC_B"]; [VStr "KC_C"]] <> []
  /\ Forall (Forall (fun key => is_dict key = false))
       [[VStr "KC_A"; VStr "JSON_NEWLINE"; VStr "KC_B"]; [VStr "KC_C"]]
  /\ forall rt,
       encode rt KeymapJSONEncoder
         (VList [VList [VStr "KC_A"; VStr "JSON_NEWLINE"; VStr "KC_B"]; VList [VStr "KC_C"]])
         (set_level (init None true true) 1)
       = (Return (EStr ("[" ++ newline
            ++ str_mul " " 16 ++ "[" ++ newline
            ++ str_mul " " 24 ++ quote_str ++ "KC_A" ++ quote_str ++ newline
            ++ str_mul " " 24 ++ quote_str ++ "KC_B" ++ quote_str ++ newline
            ++ str_mul " " 16 ++ "]," ++ newline
            ++ str_mul " " 16 ++ "[" ++ newline
            ++ str_mul " " 24 ++ quote_str ++ "KC_C" ++ quote_str ++ newline
            ++ str_mul " " 16 ++ "]" ++ newline
            ++ "    ]")),
          set_level (init None true true) 1).
Proof.
  assert (H1 : indentation_level (set_level (init None true true) 1) = 1) by reflexivity.
  assert (H2 : [[VStr "KC_A"; VStr "JSON_NEWLINE"; VStr "KC_B"]; [VStr "KC_C"]] <> [])
    by discriminate.
  assert (H3 : Forall (Forall (fun key => is_dict key = false))
                 [[VStr "KC_A"; VStr "JSON_NEWLINE"; VStr "KC_B"]; [VStr "KC_C"]])
    by (repeat constructor).
  split; [exact H1 |]. split; [exact H2 |]. split; [exact H3 |]. intro rt.
  exact (keymap_layers_row_grouped rt (set_level (init None true true) 1) _ H1 H2 H3).
Defined.

(** ** Decimals *)

Lemma decimal_eq_int_trunc coef exp n :
  decimal_eq_int coef exp n = true -> decimal_trunc coef exp = n.
Proof.
  unfold decimal_eq_int, decimal_trunc.
  destruct (Z.leb_spec 0 exp) as [Hexp | Hexp]; intro H; apply Z.eqb_eq in H.
  - exact H.
  - assert (Hpow : 0 < 10 ^ (- exp)) by (apply Z.pow_pos_nonneg; lia).
    rewrite H. apply Z.quot_mul. lia.
Qed.

(** X16.  [encode_decimal] hands back the integer [n] exactly when the
    Decimal equals [n]: the test [obj == int(obj)] loses nothing, at any
    size and any exponent. *)
Theorem encode_decimal_exact :
  forall coef exp n self,
    encode_decimal (DFinite coef exp) self = (Return (EInt n), self)
    <-> decimal_eq_int coef exp n = true.
Proof.
  intros coef exp n self. cbn [encode_decimal]. split.
  - destruct (decimal_eq_int coef exp (decimal_trunc coef exp)) eqn:E; intro H;
      inversion H; subst; exact E.
  - intro H. pose proof (decimal_eq_int_trunc _ _ _ H) as Htrunc.
    rewrite Htrunc, H. reflexivity.
Qed.

(** ** Macros in a layer *)

Lemma layer_rows_cells rt (enc : value -> M encoded) (child : value -> encoded) self obj :
  Forall (fun key => is_dict key = true -> enc key self = (Return (child key), self)) obj ->
  forall rows row,
    layer_rows rt enc obj (rows ++ [row])%list self
    = (Return
         (rows ++
            match map (map (row_cell rt (fun key => format_encoded rt (child key))))
                      (split_rows obj) with
            | first :: others => (row ++ first)%list :: others
            | [] => [row]
            end)%list,
       self).
Proof.
  induction 1 as [| key rest Hkey _ IH]; intros rows row; cbn [layer_rows split_rows].
  - cbn [map]. rewrite app_nil_r. reflexivity.
  - destruct (is_sentinel key) eqn:Esent.
    + rewrite (IH (rows ++ [row])%list []). cbn [map].
      rewrite app_nil_r, <- app_assoc. cbn [app].
      destruct (map (map (row_cell rt (fun key0 => format_encoded rt (child key0))))
                    (split_rows rest)) as [| first others] eqn:E.
      * apply map_eq_nil in E. destruct (split_rows_nonempty _ E).
      * reflexivity.
    + assert (Hstep : forall layer,
                 match key with
                 | VDict _ =>
                     x <- enc key ;;
                     layer_rows rt enc rest (append_to_last layer (format_encoded rt x))
                 | _ =>
                     layer_rows rt enc rest
                       (append_to_last layer (quote_str ++ py_str rt key ++ quote_str))
                 end self
                 = layer_rows rt enc rest
                     (append_to_last layer
                        (row_cell rt (fun key0 => format_encoded rt (child key0)) key)) self).
      { intro layer. destruct key; try reflexivity.
        rewrite (bind_run _ _ _ _ _ (Hkey eq_refl)). reflexivity. }
      rewrite Hstep, append_to_last_snoc, IH.
      destruct (split_rows rest) as [| first others] eqn:E.
      * destruct (split_rows_nonempty _ E).
      * cbn [map]. rewrite <- app_assoc. reflexivity.
Qed.

(** X17.  A mapping among the elements of a row-grouped sequence (a macro)
    is encoded at the depth of the sequence and its text is put in the row
    as it is, beside the quoted elements: when each mapping encodes, at
    depth 2, to what [child] tells, the sequence encodes to its rows, split
    at the sentinels, the cells of a row separated by a comma and a space
    and the rows by a line break alone. *)
Theorem keymap_layer_with_macros :
  forall rt self obj (child : value -> encoded),
    indentation_level self = 2 ->
    Forall (fun key => is_dict key = true ->
                       encode rt KeymapJSONEncoder key self = (Return (child key), self)) obj ->
    encode rt KeymapJSONEncoder (VList obj) self
    = (Return (EStr (indent_str self
                       ++ layer_text_with
                            (row_cell rt (fun key => format_encoded rt (child key)))
                            (str_mul (indent_str self) 3)
                            (str_mul (indent_str self) 2) obj)),
       self).
Proof.
  intros rt self obj child Hlevel Hobj. cbn [encode encode_list]. unfold keymap_encode_list.
  rewrite bind_read, Hlevel. cbn [Z.eqb Pos.eqb].
  rewrite (bind_run _ _ _ _ _ (layer_rows_cells rt _ child self obj Hobj [] [])).
  rewrite !bind_read, Hlevel. cbn [app].
  destruct (map (map (row_cell rt (fun key => format_encoded rt (child key))))
                (split_rows obj)) as [| first others] eqn:E.
  { apply map_eq_nil in E. destruct (split_rows_nonempty _ E). }
  rewrite <- E. unfold layer_text_with. rewrite map_map. reflexivity.
Qed.

Lemma keymap_layer_with_macros_witness :
  indentation_level (set_level (init None true true) 2) = 2
  /\ forall rt,
       encode rt KeymapJSONEncoder
         (VList [VStr "KC_A"; VDict []; VStr "JSON_NEWLINE"; VStr "KC_B"])
         (set_level (init None true true) 2)
       = (Return (EStr (str_mul " " 8 ++ "[" ++ newline
            ++ str_mul " " 24 ++ quote_str ++ "KC_A" ++ quote_str ++ ", {}" ++ newline
            ++ str_mul " " 24 ++ quote_str ++ "KC_B" ++ quote_str ++ newline
            ++ str_mul " " 16 ++ "]")),
          set_level (init None true true) 2).
Proof.
  assert (H1 : indentation_level (set_level (init None true true) 2) = 2) by reflexivity.
  split; [exact H1 |]. intro rt.
  assert (H2 : Forall (fun key => is_dict key = true ->
                         encode rt KeymapJSONEncoder key (set_level (init None true true) 2)
                         = (Return (EStr "{}"), set_level (init None true true) 2))
                 [VStr "KC_A"; VDict []; VStr "JSON_NEWLINE"; VStr "KC_B"]).
  { repeat constructor; intro H; first [discriminate H | reflexivity]. }
  exact (keymap_layer_with_macros rt (set_level (init None true true) 2) _
           (fun _ => EStr "{}") H1 H2).
Defined.

(** ** The text of an expanded sequence, from the texts of its elements *)

(** X18.  An expanded sequence is laid out from its elements alone: when
    a sequence holds a container and is not row-grouped, and each element
    encodes, one level deeper, to the text [child] tells, the sequence
    encodes to one line per element, in the order of the sequence, each
    made of the deeper indent and the text of the element, between the
    bracket lines. *)
Theorem expanded_sequence_from_elements :
  forall rt cls self l (child : value -> string),
    row_grouped cls (indentation_level self) = false ->
    existsb is_container l = true ->
    Forall (fun v => encode rt cls v (inside self) = (Return (EStr (child v)), inside self)) l ->
    encode rt cls (VList l) self
    = (Return (EStr (expanded_sequence_text self child l)), self).
Proof.
  intros rt cls self l child Hrow Hcont Hl.
  cbn [encode]. rewrite encode_list_plain by exact Hrow.
  unfold primitives_only. rewrite Hcont. cbn [negb].
  unfold encode_list_expanded. rewrite bind_bump. fold (inside self).
  rewrite bind_run
    with (a := map (fun v => indent_str (inside self) ++ child v) l) (mid := inside self).
  - rewrite bind_bump. unfold inside. rewrite set_level_undo, bind_read. reflexivity.
  - apply sequenceM_map_run. eapply Forall_impl; [| exact Hl].
    cbn beta. intros v Hv. rewrite bind_read, (bind_run _ _ _ _ _ Hv). reflexivity.
Qed.

Lemma expanded_sequence_from_elements_witness :
  row_grouped KeymapJSONEncoder (indentation_level (init None true true)) = false
  /\ existsb is_container [VInt 1; VList [VInt 2; VInt 3]] = true
  /\ forall rt,
       encode rt KeymapJSONEncoder (VList [VInt 1; VList [VInt 2; VInt 3]])
         (init None true true)
       = (Return (EStr ("[" ++ newline ++ "    1," ++ newline ++ "    [2, 3]" ++ newline
                            ++ "]")),
          init None true true).
Proof.
  assert (H1 : row_grouped KeymapJSONEncoder (indentation_level (init None true true)) = false)
    by reflexivity.
  assert (H2 : existsb is_container [VInt 1; VList [VInt 2; VInt 3]] = true) by reflexivity.
  split; [exact H1 |]. split; [exact H2 |]. intro rt.
  assert (H3 : Forall (fun v => encode rt KeymapJSONEncoder v (inside (init None true true))
                                = (Return (EStr (match v with
                                                 | VInt _ => "1"
                                                 | _ => "[2, 3]"
                                                 end)),
                                   inside (init None true true)))
                 [VInt 1; VList [VInt 2; VInt 3]])
    by (repeat constructor).
  exact (expanded_sequence_from_elements rt KeymapJSONEncoder (init None true true) _ _
           H1 H2 H3).
Defined.

(** ** The entries of a layout *)



(** * Decimals and the round trip *)

Import DecimalFacts DecimalPos DecimalZ.

(** ** The float nearest to a Decimal *)

Lemma round_half_even_near p q :
  0 <= p -> 0 < q ->
  0 <= round_half_even p q /\ Z.abs (2 * (p - round_half_even p q * q)) <= q.
Proof.
  intros Hp Hq. unfold round_half_even.
  pose proof (Z.div_mod p q ltac:(lia)) as Hdiv.
  pose proof (Z.mod_pos_bound p q Hq) as Hmod.
  assert (Hd : 0 <= p / q) by (apply Z.div_pos; lia).
  destruct (Z.compare_spec (2 * (p mod q)) q) as [H | H | H];
    [destruct (Z.even (p / q)) |..]; split; nia.
Qed.

(** The rounded quotient is an integer nearest to the quotient. *)
Lemma round_half_even_nearest p q k :
  0 <= p -> 0 < q ->
  Z.abs (p - round_half_even p q * q) <= Z.abs (p - k * q).
Proof.
  intros Hp Hq. destruct (round_half_even_near p q Hp Hq) as [_ H].
  set (m := round_half_even p q) in *.
  destruct (Z.eq_dec k m) as [-> | Hk]; [lia |].
  assert (q <= Z.abs ((m - k) * q)) by nia.
  nia.
Qed.

Lemma round_half_even_le p q n :
  0 <= p -> 0 < q -> p < n * q -> round_half_even p q <= n.
Proof.
  intros Hp Hq H. unfold round_half_even.
  pose proof (Z.div_mod p q ltac:(lia)) as Hdiv.
  pose proof (Z.mod_pos_bound p q Hq) as Hmod.
  assert (p / q < n) by nia.
  destruct (2 * (p mod q) ?= q); [destruct (Z.even (p / q)) |..]; lia.
Qed.

Lemma scale2_spec p q e :
  scale2 p q e = (p * 2 ^ Z.max (- e) 0, q * 2 ^ Z.max e 0).
Proof.
  unfold scale2. destruct (Z.leb_spec 0 e) as [He | He].
  - rewrite (Z.max_r (- e) 0), (Z.max_l e 0) by lia. rewrite Z.pow_0_r, Z.mul_1_r. reflexivity.
  - rewrite (Z.max_l (- e) 0), (Z.max_r e 0) by lia. rewrite Z.pow_0_r, Z.mul_1_r. reflexivity.
Qed.

Lemma pow2_pos e : 0 < 2 ^ e \/ e < 0.
Proof. destruct (Z_lt_le_dec e 0); [right; assumption | left; apply Z.pow_pos_nonneg; lia]. Qed.

Lemma pow2_max_pos e : 0 < 2 ^ Z.max e 0.
Proof. apply Z.pow_pos_nonneg; lia. Qed.

(** The scaled fractions at two exponents differ by the power of two between
    them. *)
Lemma pow2_ratio e e' :
  e <= e' ->
  2 ^ Z.max (- e) 0 * 2 ^ Z.max e' 0
  = 2 ^ (e' - e) * (2 ^ Z.max (- e') 0 * 2 ^ Z.max e 0).
Proof.
  intro H. rewrite <- !Z.pow_add_r by lia. f_equal. lia.
Qed.

Lemma float_units_multiple g e :
  binary64 g = true -> -1074 <= e ->
  (exists k, float_units g = k * 2 ^ (e + 1074))
  \/ (-1074 < e /\ Z.abs (float_units g) < 2 ^ 52 * 2 ^ (e + 1074)).
Proof.
  destruct g as [s | s | | s m e']; cbn [binary64 float_units]; try discriminate; intros H He.
  - left. exists 0. reflexivity.
  - apply andb_true_iff in H. destruct H as [H H3].
    apply andb_true_iff in H. destruct H as [H1 H2].
    apply Z.ltb_lt in H1. apply Z.leb_le in H2. apply Z.leb_le in H3.
    destruct (Z_le_gt_dec e e') as [Hle | Hgt].
    + left. exists ((if s then -1 else 1) * Z.pos m * 2 ^ (e' - e)).
      replace (e' + 1074) with ((e' - e) + (e + 1074)) by lia.
      rewrite Z.pow_add_r by lia. destruct s; ring.
    + right. split; [lia |].
      assert (Hpow : 2 * 2 ^ (e' + 1074) <= 2 ^ (e + 1074)).
      { replace (2 * 2 ^ (e' + 1074)) with (2 ^ (e' + 1075))
          by (replace (e' + 1075) with (1 + (e' + 1074)) by lia;
              rewrite Z.pow_add_r by lia; reflexivity).
        apply Z.pow_le_mono_r; lia. }
      assert (HX : 0 < 2 ^ (e' + 1074)) by (apply Z.pow_pos_nonneg; lia).
      change (2 ^ 53) with (2 ^ 52 * 2) in H1.
      generalize dependent (2 ^ (e' + 1074)). generalize dependent (2 ^ (e + 1074)).
      generalize dependent (2 ^ 52). intros T H1 Y X HY HX.
      destruct s; nia.
Qed.

(** The first exponent [binary64_of_ratio] tries, lowered by one when the
    quotient falls short, puts the quotient between [2^52] and [2^53]. *)
Lemma ratio_exponent_normal p q :
  0 < p -> 0 < q ->
  let e0 := Z.log2 p - Z.log2 q - 52 in
  let e1 := if fst (scale2 p q e0) <? snd (scale2 p q e0) * 2 ^ 52 then e0 - 1 else e0 in
  2 ^ 52 * snd (scale2 p q e1) <= fst (scale2 p q e1)
  /\ fst (scale2 p q e1) < 2 ^ 53 * snd (scale2 p q e1).
Proof.
  intros Hp Hq e0 e1.
  destruct (Z.log2_spec p Hp) as [Hp1 Hp2]. destruct (Z.log2_spec q Hq) as [Hq1 Hq2].
  pose proof (Z.log2_nonneg p) as Ha. pose proof (Z.log2_nonneg q) as Hb.
  assert (H0 : 2 ^ Z.max (- e0) 0 * 2 ^ Z.log2 p
               = 2 ^ Z.max e0 0 * (2 ^ Z.log2 q * 2 ^ 52)).
  { rewrite <- !Z.pow_add_r by lia. f_equal. lia. }
  assert (H1 : 2 ^ Z.max (- (e0 - 1)) 0 * 2 ^ Z.max e0 0
               = 2 * (2 ^ Z.max (- e0) 0 * 2 ^ Z.max (e0 - 1) 0)).
  { rewrite (pow2_ratio (e0 - 1) e0) by lia.
    replace (e0 - (e0 - 1)) with 1 by lia. reflexivity. }
  unfold Z.succ in *. rewrite !Z.pow_add_r in Hp2, Hq2 by lia. change (2 ^ 1) with 2 in *.
  change (2 ^ 53) with (2 * 2 ^ 52).
  pose proof (pow2_max_pos e0) as HA0. pose proof (pow2_max_pos (- e0)) as HB0.
  pose proof (pow2_max_pos (e0 - 1)) as HA1. pose proof (pow2_max_pos (- (e0 - 1))) as HB1.
  assert (HT : 0 < 2 ^ 52) by lia.
  assert (Hal : 0 < 2 ^ Z.log2 p) by (apply Z.pow_pos_nonneg; lia).
  assert (Hbe : 0 < 2 ^ Z.log2 q) by (apply Z.pow_pos_nonneg; lia).
  assert (F1 : p * 2 ^ Z.max (- e0) 0 < 2 * 2 ^ 52 * (q * 2 ^ Z.max e0 0)
               /\ 2 ^ 52 * (q * 2 ^ Z.max e0 0) < 2 * (p * 2 ^ Z.max (- e0) 0)).
  { clear H1 HA1 HB1 e1.
    set (B0 := 2 ^ Z.max (- e0) 0) in *. set (A0 := 2 ^ Z.max e0 0) in *.
    set (al := 2 ^ Z.log2 p) in *. set (be := 2 ^ Z.log2 q) in *.
    set (T := 2 ^ 52) in *. clearbody B0 A0 al be T.
    split.
    - assert (p * B0 < 2 * al * B0) by nia.
      assert (A0 * be * T <= A0 * q * T) by nia.
      nia.
    - assert (T * (q * A0) < T * (2 * be * A0)) by nia.
      assert (al * B0 <= p * B0) by nia.
      nia. }
  destruct F1 as [F1 F2].
  subst e1. rewrite (scale2_spec p q e0). cbn [fst snd].
  destruct (Z.ltb_spec (p * 2 ^ Z.max (- e0) 0) (q * 2 ^ Z.max e0 0 * 2 ^ 52)) as [Hlt | Hge];
    rewrite scale2_spec; cbn [fst snd].
  - clear H0 Hp1 Hp2 Hq1 Hq2 Hal Hbe.
    set (B1 := 2 ^ Z.max (- (e0 - 1)) 0) in *. set (A1 := 2 ^ Z.max (e0 - 1) 0) in *.
    set (B0 := 2 ^ Z.max (- e0) 0) in *. set (A0 := 2 ^ Z.max e0 0) in *.
    set (T := 2 ^ 52) in *. clearbody B1 A1 B0 A0 T.
    assert (p * B1 * A0 = 2 * (p * B0) * A1) by nia.
    split.
    + assert (T * (q * A1) * A0 <= p * B1 * A0) by nia. nia.
    + assert (p * B1 * A0 < 2 * T * (q * A1) * A0) by nia. nia.
  - split; lia.
Qed.

(** The exponent [binary64_of_ratio] settles on, not below [-1074], puts the
    quotient below [2^53], and at [2^52] or above unless it is [-1074]. *)
Lemma ratio_exponent p q :
  0 < p -> 0 < q ->
  let e0 := Z.log2 p - Z.log2 q - 52 in
  let e1 := if fst (scale2 p q e0) <? snd (scale2 p q e0) * 2 ^ 52 then e0 - 1 else e0 in
  let e := Z.max e1 (-1074) in
  fst (scale2 p q e) < 2 ^ 53 * snd (scale2 p q e)
  /\ (-1074 < e -> 2 ^ 52 * snd (scale2 p q e) <= fst (scale2 p q e)).
Proof.
  intros Hp Hq e0 e1 e.
  destruct (ratio_exponent_normal p q Hp Hq) as [Hlo Hhi].
  fold e0 in Hlo, Hhi. fold e1 in Hlo, Hhi.
  destruct (Z_le_gt_dec (-1074) e1) as [Hle | Hgt].
  - assert (He : e = e1) by (unfold e; lia). rewrite He.
    split; [exact Hhi | intros _; exact Hlo].
  - assert (He : e = -1074) by (unfold e; lia).
    split; [| lia].
    pose proof (pow2_ratio e1 e ltac:(lia)) as Hratio.
    assert (Hpow : 1 <= 2 ^ (e - e1)) by (apply (Z.pow_le_mono_r 2 0); lia).
    rewrite scale2_spec in *. cbn [fst snd] in *.
    pose proof (pow2_max_pos e) as HA. pose proof (pow2_max_pos (- e)) as HB.
    pose proof (pow2_max_pos e1) as HA1. pose proof (pow2_max_pos (- e1)) as HB1.
    clear Hlo.
    set (B1 := 2 ^ Z.max (- e1) 0) in *. set (A1 := 2 ^ Z.max e1 0) in *.
    set (B := 2 ^ Z.max (- e) 0) in *. set (A := 2 ^ Z.max e 0) in *.
    set (T := 2 ^ 53) in *. set (c := 2 ^ (e - e1)) in *.
    assert (HT : 0 < T) by (unfold T; lia).
    clearbody B1 A1 B A T c.
    assert (p * B1 * A < T * (q * A1) * A) by nia.
    assert (p * B1 * A = c * (p * B) * A1) by nia.
    assert (p * B * A1 <= c * (p * B) * A1) by nia.
    nia.
Qed.

Lemma SFopp_binary64 g : binary64 (SFopp g) = binary64 g.
Proof. destruct g; reflexivity. Qed.

Lemma SFopp_units g : float_units (SFopp g) = - float_units g.
Proof. destruct g as [| | | []]; cbn [SFopp float_units negb]; lia. Qed.

(** [binary64_of_ratio] rounds to nearest. *)
Lemma binary64_of_ratio_nearest neg p q :
  0 < p -> 0 < q ->
  (binary64 (binary64_of_ratio neg p q) = true
   /\ (exists M, 0 <= M
                 /\ float_units (binary64_of_ratio neg p q) = (if neg then - M else M)
                 /\ forall g, binary64 g = true ->
                              Z.abs (p * 2 ^ 1074 - M * q)
                              <= Z.abs (p * 2 ^ 1074 - float_units g * q)))
  \/ (binary64_of_ratio neg p q = S754_infinity neg
      /\ (2 ^ 54 - 1) * 2 ^ 970 * q <= p).
Proof.
  intros Hp Hq. pose proof (ratio_exponent p q Hp Hq) as Hexp.
  unfold binary64_of_ratio. cbv zeta in Hexp |- *.
  set (e0 := Z.log2 p - Z.log2 q - 52) in *.
  set (e1 := if fst (scale2 p q e0) <? snd (scale2 p q e0) * 2 ^ 52 then e0 - 1 else e0) in *.
  set (e := Z.max e1 (-1074)) in *.
  assert (He : -1074 <= e) by (unfold e; lia).
  clearbody e. clear e0 e1.
  destruct Hexp as [Hhi Hlo].
  rewrite scale2_spec in *. cbn [fst snd] in *.
  set (P := p * 2 ^ Z.max (- e) 0) in *. set (Q := q * 2 ^ Z.max e 0) in *.
  assert (HQ : 0 < Q) by (pose proof (pow2_max_pos e); unfold Q; nia).
  assert (HP : 0 <= P) by (pose proof (pow2_max_pos (- e)); unfold P; nia).
  destruct (round_half_even_near P Q HP HQ) as [Hm0 Hnear].
  pose proof (round_half_even_le P Q (2 ^ 53) HP HQ ltac:(lia)) as Hm53.
  pose proof (fun k => round_half_even_nearest P Q k HP HQ) as Hnearest.
  set (m := round_half_even P Q) in *. clearbody m.
  set (A := 2 ^ Z.max e 0) in *. set (B := 2 ^ Z.max (- e) 0) in *.
  assert (HA : 0 < A) by apply pow2_max_pos.
  assert (HB : 0 < B) by apply pow2_max_pos.
  assert (HWU : 2 ^ 1074 * A = 2 ^ (e + 1074) * B).
  { unfold A, B. rewrite <- !Z.pow_add_r by lia. f_equal. lia. }
  assert (HU : 0 < 2 ^ (e + 1074)) by (apply Z.pow_pos_nonneg; lia).
  assert (Hscale : forall k,
             Z.abs (p * 2 ^ 1074 - k * 2 ^ (e + 1074) * q) * A
             = 2 ^ (e + 1074) * Z.abs (P - k * Q)).
  { intro k. rewrite <- (Z.abs_eq A) at 1 by lia. rewrite <- Z.abs_mul.
    rewrite <- (Z.abs_eq (2 ^ (e + 1074))) at 2 by lia. rewrite <- Z.abs_mul.
    f_equal. unfold P, Q.
    set (W := 2 ^ 1074) in *. set (U := 2 ^ (e + 1074)) in *. clearbody W U A B. nia. }
  assert (Hmul : forall k,
             Z.abs (p * 2 ^ 1074 - m * 2 ^ (e + 1074) * q)
             <= Z.abs (p * 2 ^ 1074 - k * 2 ^ (e + 1074) * q)).
  { intro k. pose proof (Hscale m) as Hm. pose proof (Hscale k) as Hk.
    pose proof (Hnearest k) as Hmk.
    set (x := Z.abs (p * 2 ^ 1074 - m * 2 ^ (e + 1074) * q)) in *.
    set (y := Z.abs (p * 2 ^ 1074 - k * 2 ^ (e + 1074) * q)) in *.
    set (U := 2 ^ (e + 1074)) in *.
    set (dm := Z.abs (P - m * Q)) in *. set (dk := Z.abs (P - k * Q)) in *.
    clearbody x y U dm dk A. nia. }
  assert (Hunits : forall g, binary64 g = true ->
             Z.abs (p * 2 ^ 1074 - m * 2 ^ (e + 1074) * q)
             <= Z.abs (p * 2 ^ 1074 - float_units g * q)).
  { intros g Hg. destruct (float_units_multiple g e Hg He) as [(k & Hk) | (Hnorm & Hsmall)].
    - rewrite Hk. apply Hmul.
    - specialize (Hlo Hnorm). pose proof (Hmul (2 ^ 52)) as H52.
      assert (Hbelow : 2 ^ 52 * 2 ^ (e + 1074) * q <= p * 2 ^ 1074).
      { unfold P, Q in Hlo.
        set (W := 2 ^ 1074) in *. set (U := 2 ^ (e + 1074)) in *. set (T := 2 ^ 52) in *.
        assert (HT : 0 < T) by (unfold T; lia).
        clearbody W U A B T.
        assert (T * (q * A) * U <= p * B * U) by nia.
        assert (T * U * q * A <= p * W * A) by nia.
        nia. }
      set (W := 2 ^ 1074) in *. set (U := 2 ^ (e + 1074)) in *. set (T := 2 ^ 52) in *.
      set (G := float_units g) in *.
      assert (HT : 0 < T) by (unfold T; lia).
      clearbody W U T G. clear Hmul Hscale Hnearest.
      assert (G * q < T * U * q) by nia.
      lia. }
  destruct (Z.eqb_spec m 0) as [Hz | Hnz].
  { left. split; [reflexivity |]. exists 0. split; [lia |]. split; [destruct neg; reflexivity |].
    intros g Hg. specialize (Hunits g Hg). rewrite Hz in Hunits. exact Hunits. }
  assert (Hover : forall e', 971 < e' -> e' <= e + 1 ->
             (e = e' \/ m = 2 ^ 53) -> (2 ^ 54 - 1) * 2 ^ 970 * q <= p).
  { intros e' H971 Hee' Hcase.
    assert (He0 : 971 <= e) by lia.
    assert (HA' : A = 2 ^ (e - 971) * 2 ^ 971).
    { unfold A. rewrite <- Z.pow_add_r by lia. f_equal. lia. }
    assert (HB' : B = 1) by (unfold B; rewrite Z.max_r by lia; reflexivity).
    assert (Hc : 1 <= 2 ^ (e - 971)) by (apply (Z.pow_le_mono_r 2 0); lia).
    unfold P, Q in *. rewrite HB' in *. rewrite HA' in *.
    assert (Hc2 : e = e' -> 2 <= 2 ^ (e - 971))
      by (intro; apply (Z.pow_le_mono_r 2 1); lia).
    change (2 ^ 971) with (2 * 2 ^ 970) in *.
    change (2 ^ 54) with (2 * 2 ^ 53). change (2 ^ 53) with (2 * 2 ^ 52) in *.
    specialize (Hlo ltac:(lia)).
    set (c := 2 ^ (e - 971)) in *. set (T := 2 ^ 52) in *. set (V := 2 ^ 970) in *.
    assert (HT : 0 < T) by (unfold T; lia). assert (HV : 0 < V) by (unfold V; lia).
    clearbody c T V. clear Hscale Hmul Hunits Hnearest HWU HU.
    assert (HX : 0 < T * q * V) by nia.
    assert (HVq : 0 < V * q) by nia.
    destruct Hcase as [Hcase | Hcase].
    - specialize (Hc2 Hcase).
      assert (T * q * V * 4 <= T * q * V * (2 * c)) by nia.
      nia.
    - subst m. clear Hlo Hc2 Hhi Hm53 Hm0.
      replace ((2 * (2 * T) - 1) * V * q) with ((4 * T - 1) * (V * q)) by ring.
      replace (q * (c * (2 * V))) with (2 * (c * (V * q))) in Hnear by ring.
      set (Y := V * q) in *. clearbody Y.
      assert (Y <= c * Y) by nia.
      assert ((4 * T - 1) * Y <= (4 * T - 1) * (c * Y))
        by (apply Z.mul_le_mono_nonneg_l; lia).
      set (cY := c * Y) in *. clearbody cY.
      lia. }
  destruct (Z.eqb_spec m (2 ^ 53)) as [H53 | Hn53].
  - destruct (Z.ltb_spec 971 (e + 1)) as [Hbig | Hfit].
    + right. split; [reflexivity |]. apply (Hover (e + 1)); [lia | lia | right; exact H53].
    + left. split.
      * cbn [binary64]. apply andb_true_iff. split; [apply andb_true_iff; split |].
        -- reflexivity.
        -- apply Z.leb_le. lia.
        -- apply Z.leb_le. lia.
      * exists (m * 2 ^ (e + 1074)). split; [nia |]. split; [| exact Hunits].
        cbn [float_units]. rewrite H53.
        replace (e + 1 + 1074) with (1 + (e + 1074)) by lia.
        rewrite Z.pow_add_r by lia.
        change (Z.pos (Z.to_pos (2 ^ 52))) with (2 ^ 52). change (2 ^ 53) with (2 ^ 52 * 2 ^ 1).
        destruct neg; ring.
  - destruct (Z.ltb_spec 971 e) as [Hbig | Hfit].
    + right. split; [reflexivity |]. apply (Hover e); [lia | lia | left; reflexivity].
    + left. split.
      * cbn [binary64]. rewrite Z2Pos.id by lia.
        apply andb_true_iff. split; [apply andb_true_iff; split |].
        -- apply Z.ltb_lt. lia.
        -- apply Z.leb_le. lia.
        -- apply Z.leb_le. lia.
      * exists (m * 2 ^ (e + 1074)). split; [nia |]. split; [| exact Hunits].
        cbn [float_units]. rewrite Z2Pos.id by lia. destruct neg; reflexivity.
Qed.

(** [float(d)] is a binary64 float nearest to the Decimal [d]. *)
Lemma float_of_decimal_nearest coef exp :
  nearest_binary64 coef exp (float_of_decimal (DFinite coef exp)).
Proof.
  unfold nearest_binary64, float_distance. cbn [float_of_decimal].
  destruct (Z.eqb_spec coef 0) as [-> | Hcoef].
  { left. split; [reflexivity |]. intros g _. cbn [float_units].
    unfold decimal_num. destruct (0 <=? exp); cbn [Z.mul Z.abs Z.sub Z.add Z.opp];
      apply Z.abs_nonneg. }
  assert (Hmain : forall p q,
             0 < p -> 0 < q ->
             decimal_num coef exp = (if coef <? 0 then - p else p) ->
             decimal_den exp = q ->
             (binary64 (binary64_of_ratio (coef <? 0) p q) = true
              /\ forall g, binary64 g = true ->
                   Z.abs (decimal_num coef exp * 2 ^ 1074
                          - float_units (binary64_of_ratio (coef <? 0) p q) * decimal_den exp)
                   <= Z.abs (decimal_num coef exp * 2 ^ 1074
                             - float_units g * decimal_den exp))
             \/ (binary64_of_ratio (coef <? 0) p q = S754_infinity (coef <? 0)
                 /\ (2 ^ 54 - 1) * 2 ^ 970 * decimal_den exp
                    <= Z.abs (decimal_num coef exp))).
  { intros p q Hp Hq Hnum Hden. rewrite Hnum, Hden.
    destruct (binary64_of_ratio_nearest (coef <? 0) p q Hp Hq)
      as [(Hf & M & HM & Hunits & Hnear) | (Hinf & Hbig)].
    - left. split; [exact Hf |]. intros g Hg. rewrite Hunits.
      destruct (coef <? 0).
      + pose proof (Hnear (SFopp g)) as H. rewrite SFopp_binary64, SFopp_units in H.
        specialize (H Hg).
        replace (- p * 2 ^ 1074 - - M * q) with (- (p * 2 ^ 1074 - M * q)) by ring.
        replace (- p * 2 ^ 1074 - float_units g * q)
          with (- (p * 2 ^ 1074 - - float_units g * q)) by ring.
        rewrite !Z.abs_opp. exact H.
      + apply Hnear, Hg.
    - right. split; [exact Hinf |]. destruct (coef <? 0); lia. }
  assert (Hpow : forall n, 0 <= n -> 0 < 10 ^ n) by (intros; apply Z.pow_pos_nonneg; lia).
  destruct (Z.leb_spec 0 exp) as [Hexp | Hexp].
  - apply Hmain.
    + specialize (Hpow exp Hexp). nia.
    + lia.
    + unfold decimal_num. destruct (Z.leb_spec 0 exp); [| lia].
      destruct (Z.ltb_spec coef 0); [rewrite Z.abs_neq by lia | rewrite Z.abs_eq by lia]; ring.
    + unfold decimal_den. destruct (Z.leb_spec 0 exp); [reflexivity | lia].
  - apply Hmain.
    + lia.
    + apply Hpow. lia.
    + unfold decimal_num. destruct (Z.leb_spec 0 exp); [lia |].
      destruct (Z.ltb_spec coef 0); lia.
    + unfold decimal_den. destruct (Z.leb_spec 0 exp); [lia | reflexivity].
Qed.

(** ** A Decimal in a mapping *)

(** A non-empty mapping of a schema printer encodes to the text made of the
    texts of its values. *)
Lemma mapping_run rt cls self items (child : string * value -> encoded) :
  cls <> QMKJSONEncoder ->
  items <> [] ->
  Forall (fun kv => encode rt cls (snd kv) (item_encoder cls self)
                    = (Return (child kv), item_encoder cls self)) items ->
  encode rt cls (VDict items) self
  = (Return (EStr (mapping_text cls self (fun kv => format_encoded rt (child kv)) items)), self).
Proof.
  intros Hcls Hne Hitems.
  assert (Hlines : forall rank : string -> string,
             mapping_inline cls self = false ->
             sequenceM
               (map (fun kc : string * M encoded =>
                       pre <- read indent_str ;;
                       x <- snd kc ;;
                       ret (pre ++ json_dumps_str (fst kc) ++ ": " ++ format_encoded rt x))
                    (sorted (fun kc : string * M encoded => rank (fst kc))
                            (item_calls (encode rt cls) items)))
               (inside self)
             = (Return (map (fun kv => indent_str (inside self) ++ json_dumps_str (fst kv)
                                         ++ ": " ++ format_encoded rt (child kv))
                            (sorted (fun kv : string * value => rank (fst kv)) items)),
                inside self)).
  { intros rank Hinline. unfold item_encoder in Hitems. rewrite Hinline in Hitems.
    rewrite sorted_item_calls. unfold item_calls. rewrite map_map.
    apply sequenceM_map_run. apply sorted_Forall.
    eapply Forall_impl; [| exact Hitems]. cbn beta. intros kv Hkv. cbn [fst snd].
    rewrite bind_read, (bind_run _ _ _ _ _ Hkv). reflexivity. }
  unfold mapping_text.
  cbn [encode]. destruct cls; [contradiction | |]; cbn [encode_dict item_rank mapping_inline] in *.
  - unfold info_encode_dict. destruct items as [| kv items]; [contradiction |].
    rewrite bind_read. destruct (indentation_level self =? 4) eqn:Hlevel.
    + unfold item_encoder in Hitems. cbn [mapping_inline] in Hitems. rewrite Hlevel in Hitems.
      replace (sorted fst (item_calls (encode rt InfoJSONEncoder) (kv :: items)))
        with (item_calls (encode rt InfoJSONEncoder) (sorted fst (kv :: items)))
        by (symmetry; unfold item_calls; apply sorted_map; intro a; reflexivity).
      unfold item_calls. rewrite map_map.
      rewrite bind_run
        with (a := map (fun kv0 => string_encoder (ensure_ascii self) (fst kv0) ++ ": "
                                     ++ format_encoded rt (child kv0))
                       (sorted fst (kv :: items)))
             (mid := self).
      * reflexivity.
      * apply sequenceM_map_run. apply sorted_Forall.
        eapply Forall_impl; [| exact Hitems]. cbn beta. intros kv0 Hkv. cbn [fst snd].
        rewrite (bind_run _ _ _ _ _ (super_encode_str rt _ self)).
        rewrite (bind_run _ _ _ _ _ Hkv). reflexivity.
    + rewrite bind_bump, bind_read. fold (inside self).
      rewrite (bind_run _ _ _ _ _
                 (Hlines (info_sort_dict (indentation_level (inside self))) eq_refl)).
      rewrite bind_bump. unfold inside. rewrite set_level_undo, bind_read. reflexivity.
  - unfold keymap_encode_dict. destruct items as [| kv items]; [contradiction |].
    rewrite bind_bump, bind_read. fold (inside self).
    rewrite (bind_run _ _ _ _ _
               (Hlines (keymap_sort_dict (indentation_level (inside self))) eq_refl)).
    rewrite bind_bump. unfold inside. rewrite set_level_undo, bind_read. reflexivity.
Qed.

(** C7, amended.  In a mapping-value position of the two schema printers a
    finite Decimal is rendered as text, in a mapping of any size and at any
    depth: the text of the mapping holds, for the item of the Decimal, the
    integer literal of [n], digits and at most a minus sign, when the
    Decimal equals the integer [n]; when it equals no integer, what
    [float.__repr__] makes of a binary64 float nearest to the Decimal (of
    the infinity of its sign beyond the largest float). *)
Theorem decimal_in_mapping :
  forall rt cls self items (child : string * value -> encoded) key coef exp,
    cls <> QMKJSONEncoder ->
    In (key, VDecimal (DFinite coef exp)) items ->
    Forall (fun kv => encode rt cls (snd kv) (item_encoder cls self)
                      = (Return (child kv), item_encoder cls self)) items ->
    encode rt cls (VDict items) self
    = (Return (EStr (mapping_text cls self (fun kv => format_encoded rt (child kv)) items)),
       self)
    /\ (forall n, decimal_eq_int coef exp n = true ->
          format_encoded rt (child (key, VDecimal (DFinite coef exp))) = int_repr n
          /\ all_chars digit_or_minus (int_repr n) = true)
    /\ ((forall n, decimal_eq_int coef exp n = false) ->
        format_encoded rt (child (key, VDecimal (DFinite coef exp)))
        = float_repr rt (float_of_decimal (DFinite coef exp))
        /\ nearest_binary64 coef exp (float_of_decimal (DFinite coef exp))).
Proof.
  intros rt cls self items child key coef exp Hcls Hin Hitems.
  split; [apply mapping_run; [exact Hcls | intros ->; destruct Hin | exact Hitems] |].
  rewrite Forall_forall in Hitems. specialize (Hitems _ Hin).
  cbn [snd encode encode_decimal] in Hitems.
  split.
  - intros n Hn. pose proof (decimal_eq_int_trunc _ _ _ Hn) as Htrunc.
    rewrite Htrunc, Hn in Hitems. inversion Hitems as [Hchild]. cbn [format_encoded].
    split; [reflexivity | apply int_repr_chars].
  - intro Hnone. rewrite Hnone in Hitems. inversion Hitems as [Hchild]. cbn [format_encoded].
    split; [reflexivity | apply float_of_decimal_nearest].
Qed.

Lemma decimal_in_mapping_witness :
  InfoJSONEncoder <> QMKJSONEncoder
  /\ In ("y", VDecimal (DFinite 1 (-1)))
        [("y", VDecimal (DFinite 1 (-1))); ("x", VDecimal (DFinite 20 (-1)))]
  /\ (forall n, decimal_eq_int 1 (-1) n = false)
  /\ forall rt,
       encode rt InfoJSONEncoder
         (VDict [("y", VDecimal (DFinite 1 (-1))); ("x", VDecimal (DFinite 20 (-1)))])
         (init None true true)
       = (Return (EStr ("{" ++ newline
            ++ "    " ++ quote_str ++ "x" ++ quote_str ++ ": 2," ++ newline
            ++ "    " ++ quote_str ++ "y" ++ quote_str ++ ": "
                      ++ float_repr rt (S754_finite false 7205759403792794 (-56)) ++ newline
            ++ "}")),
          init None true true)
       /\ nearest_binary64 1 (-1) (S754_finite false 7205759403792794 (-56)).
Proof.
  assert (H1 : InfoJSONEncoder <> QMKJSONEncoder) by discriminate.
  assert (H2 : In ("y", VDecimal (DFinite 1 (-1)))
                  [("y", VDecimal (DFinite 1 (-1))); ("x", VDecimal (DFinite 20 (-1)))])
    by (left; reflexivity).
  assert (H3 : forall n, decimal_eq_int 1 (-1) n = false)
    by (intro n; unfold decimal_eq_int; cbn [Z.leb Z.compare Z.opp Z.pow Z.pow_pos
                                              Pos.iter Z.mul Pos.mul];
        apply Z.eqb_neq; lia).
  split; [exact H1 |]. split; [exact H2 |]. split; [exact H3 |]. intro rt.
  assert (H4 : Forall (fun kv : string * value =>
                         encode rt InfoJSONEncoder (snd kv)
                           (item_encoder InfoJSONEncoder (init None true true))
                         = (Return (match snd kv with
                                    | VDecimal (DFinite 20 _) => EInt 2
                                    | _ => EFloat (S754_finite false 7205759403792794 (-56))
                                    end),
                            item_encoder InfoJSONEncoder (init None true true)))
                 [("y", VDecimal (DFinite 1 (-1))); ("x", VDecimal (DFinite 20 (-1)))])
    by (repeat constructor).
  destruct (decimal_in_mapping rt InfoJSONEncoder (init None true true) _ _ "y" 1 (-1)
              H1 H2 H4) as (Htext & _ & Hfloat).
  split; [exact Htext | exact (proj2 (Hfloat H3))].
Defined.

(** C7, as stated, fails.  The Decimals [0.1] and
    [0.1000000000000000000001] are different numbers, neither of them an
    integer; both are converted to the float [7205759403792794 * 2^-56], so
    that, whatever the float formatter, the Config-Document Printer gives
    them one and the same text: the text of a Decimal that is not whole
    stands for a float and does not round-trip to the Decimal. *)
Lemma decimal_text_not_exact :
  decimal_whole (DFinite 1 (-1)) = false
  /\ decimal_whole (DFinite 1000000000000000000001 (-22)) = false
  /\ decimal_same_value 1 (-1) 1000000000000000000001 (-22) = false
  /\ float_of_decimal (DFinite 1 (-1)) = S754_finite false 7205759403792794 (-56)
  /\ float_of_decimal (DFinite 1000000000000000000001 (-22))
     = S754_finite false 7205759403792794 (-56)
  /\ (forall rt,
        encode rt InfoJSONEncoder (VDict [("x", VDecimal (DFinite 1 (-1)))])
          (init None true true)
        = (Return (EStr ("{" ++ newline
             ++ "    " ++ quote_str ++ "x" ++ quote_str ++ ": "
                       ++ float_repr rt (S754_finite false 7205759403792794 (-56)) ++ newline
             ++ "}")),
           init None true true))
  /\ (forall rt,
        encode rt InfoJSONEncoder
          (VDict [("x", VDecimal (DFinite 1000000000000000000001 (-22)))])
          (init None true true)
        = (Return (EStr ("{" ++ newline
             ++ "    " ++ quote_str ++ "x" ++ quote_str ++ ": "
                       ++ float_repr rt (S754_finite false 7205759403792794 (-56)) ++ newline
             ++ "}")),
           init None true true)).
Proof.
  repeat split; try (intro rt); vm_compute; reflexivity.
Qed.

(** ** Decoding what the printers emit *)
























(** ** The round trip *)




Section SortedAgain.
Context {A : Type} (key : A -> string).



End SortedAgain.








































